(** * SVG freehand drawing tool: a model of [script.js] and its properties

    The script keeps four module-level variables ([drawing], [currentPath],
    [currentPoints], [strokeHistory]) and mutates the children of the
    [#strokes] group.  The model below threads them through every handler as
    an explicit [State]; DOM elements are objects in a heap, named by
    references, because the same [<path>] object is shared by the scene, by
    [currentPath] and by [strokeHistory].

    The handlers store and print coordinates but never compare them, so the
    stroke recorder is modelled with coordinates in the exact rationals
    ([Q]); its properties do not rest on the arithmetic.  The coordinate
    mapping itself is studied in the script's own arithmetic, IEEE-754
    doubles, in the module [Double]. *)

From Stdlib Require Import QArith ZArith Ascii Lia Lqa.
From Stdlib Require Floats.
From stdpp Require Import base option list strings gmap pretty.

Local Open Scope string_scope.
Local Open Scope list_scope.
Local Open Scope nat_scope.

(** ** Data *)

(** A point of the logical (viewBox) space: the object [{ x, y }]. *)
Record Point := mkPoint { x : Q; y : Q }.

#[global] Instance Point_inhabited : Inhabited Point := populate (mkPoint 0 0).

(** The result of [svg.getBoundingClientRect()]. *)
Record DOMRect := mkRect {
  rect_left : Q; rect_top : Q; rect_width : Q; rect_height : Q }.

(** The fields of a pointer event that the handlers read. *)
Record PointerEvent := mkPointerEvent {
  pointerType : string; button : Z; pointerId : Z; clientX : Q; clientY : Q }.

(** The fields of a keyboard event that the [keydown] listener reads. *)
Record KeyboardEvent := mkKeyboardEvent {
  ctrlKey : bool; metaKey : bool; key : string }.

(** What a handler reads from the page when it runs: the on-screen box of the
    canvas and the current values of the two controls. *)
Record Env := mkEnv {
  rect : DOMRect; colorPicker_value : string; widthRange_value : string }.

(** References to DOM nodes. *)
Definition ref := nat.

(** A DOM element: its attribute map and the one style property the script
    sets. *)
Record Element := mkElement {
  attrs : gmap string string; style_pointerEvents : option string }.

Definition setAttribute (name value : string) (el : Element) : Element :=
  {| attrs := <[name := value]> (attrs el);
     style_pointerEvents := style_pointerEvents el |}.

(** [getAttribute] answers [null] ([None]) for a missing attribute. *)
Definition getAttribute (name : string) (el : Element) : option string :=
  attrs el !! name.

(** String coercion of a possibly-null string, as [+] performs it. *)
Definition js_string (o : option string) : string := default "null" o.

(** The module-level variables, the children of [#strokes], the heap of
    created elements and the pointers captured by the canvas. *)
Record State := mkState {
  drawing : bool;
  currentPath : option ref;
  currentPoints : list Point;
  strokeHistory : list ref;
  strokesGroup : list ref;
  heap : gmap ref Element;
  next_ref : ref;
  pointerCapture : list Z }.

(** A handler either returns or throws; the state it leaves behind is kept in
    both cases, since the page goes on after an uncaught exception. *)
Inductive completion := Normal | Throw (name : string).

(** The command letters of the path data that the script writes. *)
Definition is_command (c : ascii) : bool :=
  (c =? "M")%char || (c =? "Q")%char || (c =? "L")%char.

(** The number of path commands in a [d] attribute text. *)
Fixpoint count_commands (d : string) : nat :=
  match d with
  | EmptyString => 0
  | String c rest => (if is_command c then 1 else 0) + count_commands rest
  end.

(** The number of points an element was drawn through: the script writes one
    path command per recorded point. *)
Definition point_count (el : Element) : nat :=
  count_commands (js_string (getAttribute "d" el)).

(** What the browser does for the functions that the script calls and that
    produce text: the conversion of a number inside a template literal, the
    XML serializer (with the namespace fix-up applied to its result), the
    object URL of a blob, and the PNG encoding of the export canvas.  The
    text of a number is made of digits, a sign, a point and an exponent, or
    is [Infinity] or [NaN]: it holds no command letter. *)
Class BrowserAPI := {
  number_to_string : Q → string;
  number_to_string_plain : ∀ q, count_commands (number_to_string q) = 0;
  serializeToString : list ref → gmap ref Element → string;
  createObjectURL : string → string;
  toDataURL : string → string }.

(** ** Coordinate mapping *)

Definition vbWidth : Q := 1000.
Definition vbHeight : Q := 600.

(** [getSvgPoint] with coordinates in [Q], as the handlers below use it;
    [Double.getSvgPoint] is the same function in double arithmetic. *)
Definition getSvgPoint (env : Env) (event : PointerEvent) : Point :=
  let r := rect env in
  {| x := ((clientX event - rect_left r) / rect_width r) * vbWidth;
     y := ((clientY event - rect_top r) / rect_height r) * vbHeight |}%Q.

(** ** Path data *)

(** The segments of an SVG path that the script writes. *)
Inductive PathSeg :=
| MoveTo (p : Point)
| QuadTo (c e : Point)
| LineTo (p : Point).

Definition midpoint (p q : Point) : Point :=
  {| x := (x p + x q) / 2; y := (y p + y q) / 2 |}%Q.

(** [for (let i = lo; i < hi; i++) body], for a body that assigns neither [i]
    nor [hi]: [n = hi - lo] iterations starting at [i = lo], stopping at the
    first one that throws ([None]). *)
Fixpoint for_loop {A : Type} (n lo : nat) (body : nat → A → option A) (s : A)
  : option A :=
  match n with
  | 0 => Some s
  | S n' => s' ← body lo s; for_loop n' (S lo) body s'
  end.

Section Script.
Context {api : BrowserAPI}.

Definition coords (p : Point) : string :=
  number_to_string (x p) +:+ " " +:+ number_to_string (y p).

(** The text of one segment. *)
Definition seg_string (s : PathSeg) : string :=
  match s with
  | MoveTo p => "M " +:+ coords p
  | QuadTo c e => "Q " +:+ coords c +:+ " " +:+ coords e
  | LineTo p => "L " +:+ coords p
  end.

(** The [d] attribute text of a list of segments: single spaces between
    them. *)
Fixpoint append_segs (d : string) (segs : list PathSeg) : string :=
  match segs with
  | [] => d
  | s :: rest => append_segs (d +:+ " " +:+ seg_string s) rest
  end.

Definition path_data (segs : list PathSeg) : string :=
  match segs with
  | [] => ""
  | s :: rest => append_segs (seg_string s) rest
  end.

(** The body of the smoothing loop of [continueStroke]: reading an index out
    of range gives [undefined], whose [.x] throws. *)
Definition smooth_body (pts : list Point) (i : nat) (d : string)
  : option string :=
  pi ← pts !! i;
  pj ← pts !! (i + 1);
  let midX := ((x pi + x pj) / 2)%Q in
  let midY := ((y pi + y pj) / 2)%Q in
  Some (d +:+ " Q " +:+ number_to_string (x pi) +:+ " "
          +:+ number_to_string (y pi) +:+ " "
          +:+ number_to_string midX +:+ " " +:+ number_to_string midY).

(** Lines 67-75 of [continueStroke]: the path text rebuilt from the whole
    point list.  The loop condition is [i < length - 1] from [i = 1]. *)
Definition smooth_d (pts : list Point) : option string :=
  p0 ← pts !! 0;
  let d := "M " +:+ number_to_string (x p0) +:+ " "
             +:+ number_to_string (y p0) in
  d ← for_loop (length pts - 1 - 1) 1 (smooth_body pts) d;
  last ← pts !! (length pts - 1);
  Some (d +:+ " L " +:+ number_to_string (x last) +:+ " "
          +:+ number_to_string (y last)).


(** ** The scene *)

(** [parent.removeChild(c)] on the children of [#strokes]: throws
    [NotFoundError] ([None]) when [c] is not a child. *)
Fixpoint removeChild (c : ref) (kids : list ref) : option (list ref) :=
  match kids with
  | [] => None
  | k :: rest =>
      if decide (k = c) then Some rest
      else (k ::.) <$> removeChild c rest
  end.

(** [c.parentNode] is [#strokes] or [null]: the script attaches paths nowhere
    else. *)
Definition parentNode (c : ref) (kids : list ref) : bool :=
  bool_decide (c ∈ kids).

(** [if (c.parentNode) c.parentNode.removeChild(c)]: the children after the
    guarded removal. *)
Definition without (c : ref) (kids : list ref) : list ref :=
  if parentNode c kids then default kids (removeChild c kids) else kids.

(** [while (g.firstChild) g.removeChild(g.firstChild)]: one child leaves per
    iteration. *)
Fixpoint removeAllChildren (kids : list ref) : list ref :=
  match kids with
  | [] => []
  | _ :: rest => removeAllChildren rest
  end.

(** [svg.releasePointerCapture(id)] inside [try { } catch (e) {}]. *)
Definition releasePointerCapture (id : Z) (caps : list Z) : list Z :=
  filter (λ c, c ≠ id) caps.

(** ** Handlers *)

(** The [<path>] built by [beginStroke], attribute by attribute. *)
Definition new_path (env : Env) (p : Point) : Element :=
  let path := {| attrs := ∅; style_pointerEvents := None |} in
  let path := setAttribute "class" "stroke" path in
  let path := setAttribute "stroke" (colorPicker_value env) path in
  let path := setAttribute "stroke-width" (widthRange_value env) path in
  let path := setAttribute "fill" "none" path in
  let path :=
    setAttribute "d"
      ("M " +:+ number_to_string (x p) +:+ " " +:+ number_to_string (y p))
      path in
  {| attrs := attrs path; style_pointerEvents := Some "none" |}.

(** The guard of [beginStroke]: a mouse button other than the left one. *)
Definition filtered (event : PointerEvent) : bool :=
  String.eqb (pointerType event) "mouse" && negb (button event =? 0)%Z.

(** The event is one that the browser delivered, so its pointer is active
    and [setPointerCapture] returns. *)
Definition beginStroke (env : Env) (event : PointerEvent) (st : State)
  : completion * State :=
  if filtered event
  then (Normal, st)
  else
    let p := getSvgPoint env event in
    let path := next_ref st in
    (Normal,
     {| drawing := true;
        currentPath := Some path;
        currentPoints := [p];
        strokeHistory := strokeHistory st;
        strokesGroup := (strokesGroup st ++ [path])%list;
        heap := <[path := new_path env p]> (heap st);
        next_ref := S path;
        pointerCapture := pointerId event :: pointerCapture st |}).

Definition continueStroke (env : Env) (event : PointerEvent) (st : State)
  : completion * State :=
  match drawing st, currentPath st with
  | true, Some path =>
      let p := getSvgPoint env event in
      let pts := (currentPoints st ++ [p])%list in
      let pushed (h : gmap ref Element) :=
        {| drawing := drawing st; currentPath := currentPath st;
           currentPoints := pts; strokeHistory := strokeHistory st;
           strokesGroup := strokesGroup st; heap := h;
           next_ref := next_ref st; pointerCapture := pointerCapture st |} in
      let set_d (f : Element → string) :=
        pushed (alter (λ el, setAttribute "d" (f el) el) path (heap st)) in
      if (length pts <? 3)%nat then
        (Normal,
         set_d (λ el, js_string (getAttribute "d" el) +:+ " L "
                        +:+ number_to_string (x p) +:+ " "
                        +:+ number_to_string (y p)))
      else
        match smooth_d pts with
        | Some d => (Normal, set_d (λ _, d))
        | None => (Throw "TypeError", pushed (heap st))
        end
  | _, _ => (Normal, st)
  end.

Definition endStroke (env : Env) (event : PointerEvent) (st : State)
  : completion * State :=
  if negb (drawing st) then (Normal, st)
  else
    let caps := releasePointerCapture (pointerId event) (pointerCapture st) in
    match currentPath st with
    | None =>
        (Normal,
         {| drawing := false; currentPath := None;
            currentPoints := currentPoints st;
            strokeHistory := strokeHistory st;
            strokesGroup := strokesGroup st; heap := heap st;
            next_ref := next_ref st; pointerCapture := caps |})
    | Some path =>
        if (length (currentPoints st) <? 2)%nat then
          match removeChild path (strokesGroup st) with
          | Some kids =>
              (Normal,
               {| drawing := false; currentPath := None; currentPoints := [];
                  strokeHistory := strokeHistory st;
                  strokesGroup := kids; heap := heap st;
                  next_ref := next_ref st; pointerCapture := caps |})
          | None =>
              (Throw "NotFoundError",
               {| drawing := false; currentPath := Some path;
                  currentPoints := currentPoints st;
                  strokeHistory := strokeHistory st;
                  strokesGroup := strokesGroup st; heap := heap st;
                  next_ref := next_ref st; pointerCapture := caps |})
          end
        else
          let commit el :=
            setAttribute "stroke-width" (widthRange_value env)
              (setAttribute "stroke" (colorPicker_value env) el) in
          (Normal,
           {| drawing := false; currentPath := None; currentPoints := [];
              strokeHistory := (strokeHistory st ++ [path])%list;
              strokesGroup := strokesGroup st;
              heap := alter commit path (heap st);
              next_ref := next_ref st; pointerCapture := caps |})
    end.

(** [strokeHistory.pop()]: the last element, or [undefined] on an empty
    array, which is left empty. *)
Definition pop (h : list ref) : option ref * list ref :=
  (last h, removelast h).

Definition undoLast (st : State) : completion * State :=
  let '(last, h) := pop (strokeHistory st) in
  let kids :=
    match last with
    | Some l => without l (strokesGroup st)
    | None => strokesGroup st
    end in
  (Normal,
   {| drawing := drawing st; currentPath := currentPath st;
      currentPoints := currentPoints st; strokeHistory := h;
      strokesGroup := kids; heap := heap st;
      next_ref := next_ref st; pointerCapture := pointerCapture st |}).

Definition clearAll (st : State) : completion * State :=
  (Normal,
   {| drawing := drawing st; currentPath := currentPath st;
      currentPoints := currentPoints st; strokeHistory := [];
      strokesGroup := removeAllChildren (strokesGroup st); heap := heap st;
      next_ref := next_ref st; pointerCapture := pointerCapture st |}).


(** [s.toLowerCase()] on the ASCII letters; other characters are kept. *)
Definition lower_ascii (c : ascii) : ascii :=
  let n := nat_of_ascii c in
  if ((65 <=? n) && (n <=? 90))%nat then ascii_of_nat (n + 32) else c.

Fixpoint toLowerCase (s : string) : string :=
  match s with
  | EmptyString => EmptyString
  | String c rest => String (lower_ascii c) (toLowerCase rest)
  end.

(** The [keydown] listener of the window. *)
Definition onKeyDown (e : KeyboardEvent) (st : State) : completion * State :=
  if (ctrlKey e || metaKey e) && String.eqb (toLowerCase (key e)) "z"
  then undoLast st
  else (Normal, st).

(** ** Raster export *)

(** What the export does that the user or the page can observe. *)
Inductive Effect :=
| FillRect (fillStyle : string) (w h : Q)
| DrawImage (src : string) (w h : Q)
| RevokeObjectURL (url : string)
| Alert (message : string)
| DownloadClick (href download : string).

(** The [Image] that [saveAsPng] creates: its source and its two callbacks.
    [onload] reads the clock ([Date.now()]) when it runs. *)
Record Image := mkImage {
  img_src : string;
  img_onload : Z → list Effect;
  img_onerror : list Effect }.

Definition saveAsPng (st : State) : Image * State :=
  let vb_width : Q := 1000%Q in
  let vb_height : Q := 600%Q in
  let svgString := serializeToString (strokesGroup st) (heap st) in
  let url := createObjectURL svgString in
  ({| img_src := url;
      img_onload := λ now,
        [ FillRect "#ffffff" vb_width vb_height;
          DrawImage url vb_width vb_height;
          RevokeObjectURL url;
          DownloadClick (toDataURL url)
            ("drawing_" +:+ pretty now +:+ ".png") ];
      img_onerror :=
        [ RevokeObjectURL url;
          Alert "Could not save image — this may be blocked by browser in some environments." ] |},
   st).

(** How the browser answers [img.src = url]: it loads the image and calls
    [onload], or it fails and calls [onerror]. *)
Inductive LoadResult := Loaded (now : Z) | Failed.

Definition fire (img : Image) (r : LoadResult) : list Effect :=
  match r with
  | Loaded now => img_onload img now
  | Failed => img_onerror img
  end.

(** ** Event wiring *)

Inductive Action :=
| PointerDown (env : Env) (e : PointerEvent)
| PointerMove (env : Env) (e : PointerEvent)
| PointerUp (env : Env) (e : PointerEvent)
| PointerCancel (env : Env) (e : PointerEvent)
| PointerLeave (env : Env) (e : PointerEvent)
| ClearClick
| UndoClick
| SaveClick
| KeyDown (e : KeyboardEvent).

Definition dispatch (a : Action) (st : State) : completion * State :=
  match a with
  | PointerDown env e => beginStroke env e st
  | PointerMove env e => continueStroke env e st
  | PointerUp env e => endStroke env e st
  | PointerCancel env e => endStroke env e st
  | PointerLeave _ _ => (Normal, st)
  | ClearClick => clearAll st
  | UndoClick => undoLast st
  | SaveClick => (Normal, (saveAsPng st).2)
  | KeyDown e => onKeyDown e st
  end.

(** The state after a sequence of events, oldest first. *)
Definition run (acts : list Action) (st : State) : State :=
  foldl (λ s a, (dispatch a s).2) st acts.

(** The events that may arrive between the pointer-down and the release of
    one gesture, and the samples that they carry. *)
Definition mid_gesture (a : Action) : bool :=
  match a with
  | PointerDown _ _ | PointerUp _ _ | PointerCancel _ _ => false
  | _ => true
  end.

Definition sample_of (a : Action) : option Point :=
  match a with
  | PointerMove env e => Some (getSvgPoint env e)
  | _ => None
  end.

Definition samples_of (acts : list Action) : list Point := omap sample_of acts.

(** The page when the script has just been loaded: the four variables have
    their initial values; [#strokes] holds whatever nodes the document gave
    it, none of them created by the script. *)
Definition initial (st : State) : Prop :=
  drawing st = false ∧ currentPath st = None ∧ currentPoints st = [] ∧
  strokeHistory st = [] ∧ heap st = ∅ ∧ NoDup (strokesGroup st) ∧
  (∀ r, r ∈ strokesGroup st → r < next_ref st).

Inductive reachable : State → Prop :=
| reachable_initial st : initial st → reachable st
| reachable_step a st : reachable st → reachable (dispatch a st).2.

(** ** The curve, segment by segment *)

(** The quadratic segments for the points from [P[1]] on: one per point that
    has a successor, with that point as control point and the midpoint to its
    successor as end point. *)
Fixpoint quads (pts : list Point) : list PathSeg :=
  match pts with
  | c :: (n :: _) as rest => QuadTo c (midpoint c n) :: quads rest
  | _ => []
  end.

(** The segments that the script has written for a point list: a lone move
    for a single point, otherwise the move, the quadratic chain and the line
    to the last point. *)
Definition rendered_segs (pts : list Point) : list PathSeg :=
  match pts with
  | [] => []
  | [p0] => [MoveTo p0]
  | p0 :: rest =>
      (MoveTo p0 :: quads rest ++ option_list (LineTo <$> last rest))%list
  end.

(** The curve of section 4.3 of the specification, as it words it: nothing
    for 0-1 points, a straight segment for 2, and for 3 or more the chain of
    quadratic segments closed by a straight segment to the last point. *)
Definition spec_curve (P : list Point) : list PathSeg :=
  let n := length P in
  if n <? 2 then []
  else if n =? 2 then [MoveTo (P !!! 0); LineTo (P !!! 1)]
  else
    MoveTo (P !!! 0)
      :: map (λ i, QuadTo (P !!! i) (midpoint (P !!! i) (P !!! (i + 1))))
           (seq 1 (n - 2))
      ++ [LineTo (P !!! (n - 1))].


(** ** The invariant of the page *)

(** The element [r] carries the path text of the point list [pts]. *)
Definition drawn (st : State) (r : ref) (pts : list Point) : Prop :=
  ∃ el, heap st !! r = Some el ∧
        getAttribute "d" el = Some (path_data (rendered_segs pts)).

Record Inv (st : State) : Prop := mkInv {
  inv_nodup : NoDup (strokesGroup st);
  inv_group_lt : ∀ r, r ∈ strokesGroup st → r < next_ref st;
  inv_hist_lt : ∀ r, r ∈ strokeHistory st → r < next_ref st;
  inv_drawing : drawing st = true → is_Some (currentPath st);
  inv_current : ∀ r, currentPath st = Some r →
    (r < next_ref st) ∧ (r ∉ strokeHistory st) ∧ (currentPoints st ≠ []) ∧
    drawn st r (currentPoints st);
  inv_hist : ∀ r, r ∈ strokeHistory st →
    ∃ pts, 2 ≤ length pts ∧ drawn st r pts }.

(** An element that is no longer the current path and is not in the history,
    in a state that satisfies the invariant. *)
Definition abandoned (old : ref) (s : State) : Prop :=
  Inv s ∧ old < next_ref s ∧ currentPath s ≠ Some old ∧ old ∉ strokeHistory s.

End Script.

(** ** Sample inputs *)

(** A number printer for the samples: the reduced fraction in decimal
    digits, without the denominator when it is 1. *)
Definition digit (k : nat) : ascii :=
  nth k ["0"; "1"; "2"; "3"; "4"; "5"; "6"; "7"; "8"; "9"]%char "0"%char.

Fixpoint decimal (fuel : nat) (n : N) (acc : string) : string :=
  match fuel with
  | 0 => acc
  | S fuel' =>
      let acc' := String (digit (N.to_nat (n mod 10))) acc in
      if (n / 10 =? 0)%N then acc' else decimal fuel' (n / 10) acc'
  end.

Definition decimal_of_pos (p : positive) (acc : string) : string :=
  decimal (Pos.size_nat p) (Npos p) acc.

Definition denominator (d : positive) : string :=
  if (d =? 1)%positive then "" else String "/" (decimal_of_pos d "").

Definition sample_number_to_string (q : Q) : string :=
  let r := Qred q in
  let tail := denominator (Qden r) in
  match Qnum r with
  | Z0 => String "0" tail
  | Zpos p => decimal_of_pos p tail
  | Zneg p => String "-" (decimal_of_pos p tail)
  end.

Definition sample_api : BrowserAPI.
Proof.
  refine {| number_to_string := sample_number_to_string;
            serializeToString := λ _ _, "<svg/>";
            createObjectURL := λ s, "blob:" +:+ s;
            toDataURL := λ s, "data:image/png," +:+ s |}.
  assert (∀ k, is_command (digit k) = false) as Hdigit.
  { intros k. do 10 (destruct k as [|k]; [reflexivity|]). by destruct k. }
  assert (∀ fuel n acc, count_commands (decimal fuel n acc) = count_commands acc)
    as Hdec.
  { induction fuel as [|fuel IH]; intros n acc; cbn [decimal]; [reflexivity|].
    destruct (n / 10 =? 0)%N; [|rewrite IH]; cbn [count_commands];
      by rewrite Hdigit. }
  assert (∀ d, count_commands (denominator d) = 0) as Htail.
  { intros d. unfold denominator, decimal_of_pos.
    destruct (d =? 1)%positive; cbn [count_commands]; rewrite ?Hdec; reflexivity. }
  intros q. unfold sample_number_to_string, decimal_of_pos.
  destruct (Qnum (Qred q)); repeat (cbn [count_commands]; rewrite ?Hdec);
    by rewrite Htail.
Defined.

Definition sample_initial : State := mkState false None [] [] [] ∅ 0 [].

Definition sample_env : Env := mkEnv (mkRect 0 0 1000 600) "#000000" "3".

Definition sample_env_release : Env := mkEnv (mkRect 0 0 500 300) "#ff0000" "5".

Definition sample_event (cx cy : Q) : PointerEvent :=
  mkPointerEvent "mouse" 0 1 cx cy.

(** The scenario of section 8: samples (0,0), (5,5), (10,0). *)
Definition sample_moves : list Action :=
  [ PointerMove sample_env (sample_event 5 5);
    PointerMove sample_env (sample_event 10 0) ].

Definition sample_down : Action := PointerDown sample_env (sample_event 0 0).

Definition sample_up : Action := PointerUp sample_env_release (sample_event 10 0).

(** ** Coordinate mapping in double arithmetic *)

Module Double.
Import PrimFloat SpecFloat FloatOps.
Local Open Scope float_scope.

(** The point [{ x, y }], the box of [getBoundingClientRect()] and the
    position of an event, with JavaScript numbers as binary64 floats. *)
Record Point := mkPoint { x : float; y : float }.

Record DOMRect := mkRect {
  rect_left : float; rect_top : float; rect_width : float; rect_height : float }.

Record Position := mkPosition { clientX : float; clientY : float }.

Definition vbWidth : float := 1000.
Definition vbHeight : float := 600.

(** [getSvgPoint], lines 22-30, each operation being the double operation. *)
Definition getSvgPoint (rect : DOMRect) (event : Position) : Point :=
  {| x := ((clientX event - rect_left rect) / rect_width rect) * vbWidth;
     y := ((clientY event - rect_top rect) / rect_height rect) * vbHeight |}.

(** The rational number that a finite double stands for; 0 for the others,
    which [is_finite] tells apart. *)
Definition value (f : float) : Q :=
  match Prim2SF f with
  | S754_finite s m e =>
      ((if s then -1 else 1) * inject_Z (Zpos m) * Qpower 2 e)%Q
  | _ => 0%Q
  end.

(** The double [r] is finite and stands for exactly [q]: the operation that
    gave [r] did not round. *)
Definition exact (r : float) (q : Q) : bool :=
  is_finite r && Qeq_bool (value r) q.





End Double.

(** ** Namespace fix-up of the serialized scene *)

(** Strings are read as sequences of code units below 256. *)
Definition dquote : ascii := ascii_of_nat 34.

(** One element of a regular expression: a literal character, or [.], which
    matches any character but a line terminator. *)
Inductive RegexChar := Lit (c : ascii) | Dot.

Definition regex_char_matches (p : RegexChar) (c : ascii) : bool :=
  match p with
  | Lit a => (a =? c)%char
  | Dot => negb ((c =? ascii_of_nat 10)%char || (c =? ascii_of_nat 13)%char)
  end.

(** The tail of the two patterns of [saveAsPng] as written in the source:
    every character stands for itself except [.], which is left unescaped
    there. *)
Fixpoint regex_of (s : string) : list RegexChar :=
  match s with
  | EmptyString => []
  | String c rest => (if (c =? ".")%char then Dot else Lit c) :: regex_of rest
  end.

(** The text matches the pattern from its first character on. *)
Fixpoint starts_with (ps : list RegexChar) (s : string) : bool :=
  match ps, s with
  | [], _ => true
  | p :: ps', String c s' => regex_char_matches p c && starts_with ps' s'
  | _ :: _, EmptyString => false
  end.

(** [[^>]*] followed by the pattern. *)
Fixpoint after_tag (ps : list RegexChar) (s : string) : bool :=
  starts_with ps s ||
  match s with
  | String c s' => negb (c =? ">")%char && after_tag ps s'
  | EmptyString => false
  end.

(** The text after a leading [<svg], if the text starts with it. *)
Definition strip_svg (s : string) : option string :=
  match s with
  | String "<" (String "s" (String "v" (String "g" rest))) => Some rest
  | _ => None
  end.

(** [s.match(/^<svg[^>]+ps/)] is not [null]. *)
Definition regex_test (ps : list RegexChar) (s : string) : bool :=
  match strip_svg s with
  | Some (String c s') => negb (c =? ">")%char && after_tag ps s'
  | _ => false
  end.

(** [s.replace(/^<svg/, r)]; [r] holds no [$]. *)
Definition replace_svg (r : string) (s : string) : string :=
  match strip_svg s with
  | Some rest => r +:+ rest
  | None => s
  end.

Definition xmlns_svg : string :=
  "xmlns=" +:+ String dquote ("http://www.w3.org/2000/svg" +:+ String dquote "").

Definition quoted_xlink : string :=
  String dquote ("http://www.w3.org/1999/xlink" +:+ String dquote "").

(** Lines 126-132 of [saveAsPng]: add the name spaces if missing. *)
Definition addNamespaces (svgString : string) : string :=
  let svgString :=
    if negb (regex_test (regex_of xmlns_svg) svgString)
    then replace_svg ("<svg " +:+ xmlns_svg) svgString
    else svgString in
  if negb (regex_test (regex_of quoted_xlink) svgString)
  then replace_svg ("<svg xmlns:xlink=" +:+ quoted_xlink) svgString
  else svgString.

(** ** Further vocabulary for the properties *)

(** Events that neither start nor end a gesture and touch neither the
    history nor the scene. *)
Definition quiet (a : Action) : bool :=
  match a with
  | PointerMove _ _ | PointerLeave _ _ | SaveClick => true
  | _ => false
  end.



(** The element [r] has been created and is not the current path. *)
Definition settled (r : ref) (s : State) : Prop :=
  r < next_ref s ∧ currentPath s ≠ Some r.

(** No stroke is committed twice, and the committed strokes and the current
    path are children of the group. *)
Definition rendered_history (s : State) : Prop :=
  NoDup (strokeHistory s) ∧
  (∀ r, r ∈ strokeHistory s → r ∈ strokesGroup s) ∧
  (∀ r, currentPath s = Some r → r ∈ strokesGroup s).


(** * Properties *)

Section Properties.
Context {api : BrowserAPI}.

(** ** Path text *)

Lemma string_app_assoc (s1 s2 s3 : string) :
  (s1 +:+ s2) +:+ s3 = s1 +:+ s2 +:+ s3.
Proof.
  induction s1 as [|c s1 IH]; [done|].
  change (String c ((s1 +:+ s2) +:+ s3) = String c (s1 +:+ s2 +:+ s3)).
  by rewrite IH.
Qed.

Lemma append_segs_app (d : string) (l1 l2 : list PathSeg) :
  append_segs d (l1 ++ l2) = append_segs (append_segs d l1) l2.
Proof. revert d. induction l1 as [|s l1 IH]; intros d; simpl; [done | apply IH]. Qed.

Lemma smooth_body_quad (pts : list Point) (i : nat) (d : string) (c n : Point) :
  pts !! i = Some c → pts !! (i + 1) = Some n →
  smooth_body pts i d = Some (d +:+ " " +:+ seg_string (QuadTo c (midpoint c n))).
Proof.
  intros Hc Hn. unfold smooth_body. rewrite Hc, Hn. simpl.
  do 2 f_equal. unfold coords. simpl.
  by rewrite !string_app_assoc.
Qed.

(** The loop, started at the index where [rest] begins, appends the quadratic
    chain of [rest] and never reads out of range. *)
Lemma for_loop_quads (rest pre : list Point) (d : string) :
  for_loop (length rest - 1) (length pre) (smooth_body (pre ++ rest)) d
  = Some (append_segs d (quads rest)).
Proof.
  revert pre d. induction rest as [|c rest IH]; intros pre d; [done|].
  destruct rest as [|n rest]; [done|].
  replace (length (c :: n :: rest) - 1) with (S (length (n :: rest) - 1))
    by (cbn [length]; lia).
  cbn [for_loop].
  rewrite (smooth_body_quad _ _ _ c n).
  - cbn [mbind option_bind].
    specialize (IH (pre ++ [c])%list).
    rewrite length_app, <- (assoc_L (++)) in IH. cbn [length] in IH.
    replace (length pre + 1) with (S (length pre)) in IH by lia.
    rewrite IH. done.
  - by rewrite list_lookup_middle.
  - rewrite (lookup_app_r pre) by lia.
    by replace (length pre + 1 - length pre) with 1 by lia.
Qed.

(** From two points on, the text rebuilt by the script is the text of the
    move, the quadratic chain and the closing line. *)
Lemma smooth_d_rendered (pts : list Point) :
  2 ≤ length pts → smooth_d pts = Some (path_data (rendered_segs pts)).
Proof.
  destruct pts as [|p0 [|p1 rest]]; cbn [length]; [lia | lia | intros _].
  unfold smooth_d. cbn [lookup list_lookup mbind option_bind].
  replace (length (p0 :: p1 :: rest) - 1 - 1) with (length (p1 :: rest) - 1)
    by (cbn [length]; lia).
  rewrite (for_loop_quads (p1 :: rest) [p0]). cbn [mbind option_bind].
  replace (length (p0 :: p1 :: rest) - 1) with (pred (length (p0 :: p1 :: rest)))
    by (cbn [length]; lia).
  rewrite <- last_lookup, last_cons_cons.
  destruct (last (p1 :: rest)) as [l|] eqn:Hl; [|by apply last_None in Hl].
  cbn [mbind option_bind]. f_equal.
  unfold rendered_segs, path_data. rewrite Hl. cbn [fmap option_fmap option_map option_list].
  by rewrite append_segs_app.
Qed.

Lemma quads_length (pts : list Point) : length (quads pts) = length pts - 1.
Proof.
  induction pts as [|c [|n rest] IH]; [done | done |].
  change (quads (c :: n :: rest)) with (QuadTo c (midpoint c n) :: quads (n :: rest)).
  cbn [length] in *. lia.
Qed.

Lemma quads_lookup (pts : list Point) (i : nat) (c n : Point) :
  pts !! i = Some c → pts !! (i + 1) = Some n →
  quads pts !! i = Some (QuadTo c (midpoint c n)).
Proof.
  revert i. induction pts as [|c0 [|n0 rest] IH]; intros i Hc Hn; [done | |].
  - destruct i; simplify_eq/=.
  - change (quads (c0 :: n0 :: rest))
      with (QuadTo c0 (midpoint c0 n0) :: quads (n0 :: rest)).
    destruct i as [|i]; [by simplify_eq/= |].
    apply (IH i); done.
Qed.

Lemma rendered_segs_length (pts : list Point) :
  length (rendered_segs pts) = length pts.
Proof.
  destruct pts as [|p0 [|p1 rest]]; [done | done |].
  unfold rendered_segs.
  destruct (last (p1 :: rest)) as [l|] eqn:Hl; [|by apply last_None in Hl].
  cbn [fmap option_fmap option_map option_list length].
  rewrite length_app, quads_length. simpl. lia.
Qed.


Lemma rendered_segs_head (pts : list Point) (p0 : Point) :
  pts !! 0 = Some p0 → rendered_segs pts !! 0 = Some (MoveTo p0).
Proof. destruct pts as [|q [|q1 rest]]; intros; by simplify_eq/=. Qed.

Lemma rendered_segs_quad (pts : list Point) (i : nat) (c n : Point) :
  1 ≤ i → pts !! i = Some c → pts !! (i + 1) = Some n →
  rendered_segs pts !! i = Some (QuadTo c (midpoint c n)).
Proof.
  intros Hi Hc Hn. destruct i as [|i]; [lia|].
  destruct pts as [|p0 [|p1 rest]]; [done | done |].
  unfold rendered_segs. cbn [lookup list_lookup] in *.
  apply lookup_app_l_Some. by apply quads_lookup.
Qed.

Lemma rendered_segs_last (pts : list Point) (l : Point) :
  2 ≤ length pts → last pts = Some l →
  rendered_segs pts !! (length pts - 1) = Some (LineTo l).
Proof.
  destruct pts as [|p0 [|p1 rest]]; cbn [length]; [lia | lia | intros _ Hl].
  rewrite last_cons_cons in Hl. unfold rendered_segs. rewrite Hl.
  replace (S (S (length rest)) - 1) with (S (length (quads (p1 :: rest))))
    by (rewrite quads_length; cbn [length]; lia).
  change (option_list (LineTo <$> Some l)) with [LineTo l].
  change ((quads (p1 :: rest) ++ [LineTo l]) !! length (quads (p1 :: rest))
          = Some (LineTo l)).
  by apply list_lookup_middle.
Qed.

(** The recursive chain is the chain indexed as the specification words
    it: interior indices [1 .. n-2] of the whole list. *)
Lemma quads_indexed (p0 : Point) (rest : list Point) :
  quads rest
  = map (λ i, QuadTo ((p0 :: rest) !!! i)
                (midpoint ((p0 :: rest) !!! i) ((p0 :: rest) !!! (i + 1))))
      (seq 1 (length (p0 :: rest) - 2)).
Proof.
  apply list_eq. intros i.
  change (map ?f ?l) with (f <$> l). rewrite list_lookup_fmap.
  cbn [length].
  destruct (decide (i < length rest - 1)) as [Hi|Hi].
  - rewrite lookup_seq_lt by lia. cbn [fmap option_fmap option_map].
    change ((p0 :: rest) !!! (1 + i)) with (rest !!! i).
    change ((p0 :: rest) !!! (1 + i + 1)) with (rest !!! (i + 1)).
    apply quads_lookup; apply list_lookup_lookup_total_lt; lia.
  - rewrite lookup_seq_ge by lia.
    apply lookup_ge_None. rewrite quads_length. lia.
Qed.

Lemma spec_curve_rendered (pts : list Point) :
  2 ≤ length pts → spec_curve pts = rendered_segs pts.
Proof.
  destruct pts as [|p0 [|p1 [|p2 rest]]]; cbn [length]; [lia | lia | done |].
  intros _. unfold spec_curve, rendered_segs.
  change (length (p0 :: p1 :: p2 :: rest) <? 2) with false.
  change (length (p0 :: p1 :: p2 :: rest) =? 2) with false. cbn iota.
  rewrite <- (quads_indexed p0 (p1 :: p2 :: rest)).
  change ((p0 :: p1 :: p2 :: rest) !!! 0) with p0. do 2 f_equal.
  rewrite last_lookup.
  rewrite (list_lookup_lookup_total_lt (p1 :: p2 :: rest)) by (cbn [length]; lia).
  cbn [fmap option_fmap option_map option_list]. do 2 f_equal.
Qed.

(** ** Children of the group *)

Lemma removeChild_None (c : ref) (kids : list ref) :
  removeChild c kids = None ↔ c ∉ kids.
Proof.
  induction kids as [|k kids IH]; cbn [removeChild].
  - split; [intros _; apply not_elem_of_nil | done].
  - rewrite not_elem_of_cons. case_decide as Hk.
    + split; [done | intros [? _]; congruence].
    + rewrite fmap_None, IH.
      split; [intros ?; split; [congruence | done] | by intros [_ ?]].
Qed.

Lemma removeChild_Some (c : ref) (kids kids' : list ref) :
  removeChild c kids = Some kids' → NoDup kids →
  NoDup kids' ∧ ∀ r, r ∈ kids' ↔ r ∈ kids ∧ r ≠ c.
Proof.
  revert kids'. induction kids as [|k kids IH]; intros kids' Hrm Hnd; [done|].
  cbn [removeChild] in Hrm. apply NoDup_cons in Hnd as [Hk Hnd].
  case_decide as Hkc.
  - simplify_eq. split; [done|]. intros r. rewrite elem_of_cons.
    split; [|by intros [[?|?] ?]]. intros Hr. split; [by right|]. by intros ->.
  - apply fmap_Some in Hrm as (kids0 & Hrm & ->).
    destruct (IH _ Hrm Hnd) as [Hnd0 Hin0]. split.
    + apply NoDup_cons. split; [|done]. rewrite Hin0. by intros [? _].
    + intros r. rewrite !elem_of_cons, Hin0. split.
      * intros [->|[? ?]]; [split; [by left | done] | split; [by right | done]].
      * intros [[->|?] ?]; [by left | by right].
Qed.

Lemma without_spec (l : ref) (kids : list ref) :
  NoDup kids →
  NoDup (without l kids) ∧ ∀ r, r ∈ without l kids ↔ r ∈ kids ∧ r ≠ l.
Proof.
  intros Hnd. unfold without, parentNode. case_bool_decide as Hl.
  - destruct (removeChild l kids) as [kids'|] eqn:Hrm.
    + by apply removeChild_Some.
    + by apply removeChild_None in Hrm.
  - split; [done|]. intros r. split; [|by intros [? _]].
    intros Hr. split; [done|]. by intros ->.
Qed.

Lemma removeAllChildren_nil (kids : list ref) : removeAllChildren kids = [].
Proof. induction kids as [|k kids IH]; [done | exact IH]. Qed.


(** ** Preservation of the invariant *)

Lemma alter_lookup_insert (f : Element → Element) (r : ref) (el : Element)
    (h : gmap ref Element) :
  h !! r = Some el → alter f r h = <[r := f el]> h.
Proof.
  intros Hr. apply map_eq. intros j. destruct (decide (r = j)) as [<-|Hne].
  - by rewrite lookup_alter_eq, lookup_insert_eq, Hr.
  - by rewrite lookup_alter_ne, lookup_insert_ne.
Qed.

Lemma elem_of_removelast (r : ref) (h : list ref) :
  r ∈ removelast h → r ∈ h.
Proof.
  destruct (last h) as [a|] eqn:Hl.
  - apply last_Some in Hl as [h' ->]. rewrite removelast_last.
    intros Hr. apply elem_of_app. by left.
  - apply last_None in Hl as ->. done.
Qed.

Lemma Inv_initial (st : State) : initial st → Inv st.
Proof.
  intros (Hd & Hc & Hp & Hh & _ & Hnd & Hlt).
  split; try done.
  - intros r. rewrite Hh. by intros ?%elem_of_nil.
  - rewrite Hd. done.
  - intros r. rewrite Hc. done.
  - intros r. rewrite Hh. by intros ?%elem_of_nil.
Qed.

Lemma new_path_d (env : Env) (p : Point) :
  getAttribute "d" (new_path env p) = Some (path_data (rendered_segs [p])).
Proof. unfold getAttribute, new_path. cbn. by rewrite lookup_insert_eq. Qed.

Lemma Inv_beginStroke (env : Env) (e : PointerEvent) (st : State) :
  Inv st → Inv (beginStroke env e st).2.
Proof.
  intros [Hnd Hglt Hhlt Hdr Hcur Hhist]. unfold beginStroke.
  destruct (filtered e); [by split|]. split; cbn.
  - apply NoDup_app. split_and!; [done | | apply NoDup_singleton].
    intros r Hr ->%list_elem_of_singleton. apply Hglt in Hr. lia.
  - intros r [Hr| ->%list_elem_of_singleton]%elem_of_app; [apply Hglt in Hr|]; lia.
  - intros r Hr%Hhlt. lia.
  - by eexists.
  - intros r [= <-]. split_and!; [lia | | done |].
    + intros Hr%Hhlt. lia.
    + exists (new_path env (getSvgPoint env e)). split.
      * apply lookup_insert_eq.
      * apply new_path_d.
  - intros r Hr. destruct (Hhist r Hr) as (pts & Hlen & el & Hel & Hd).
    exists pts. split; [done|]. exists el. split; [|done]. cbn.
    rewrite lookup_insert_ne; [done|]. apply Hhlt in Hr. lia.
Qed.


(** What a move sample does to a stroke in progress: the sample is pushed,
    and the element carries the path text of the longer list.  Both branches
    of [continueStroke] are covered: the appended line (2 points) and the
    rebuilt chain (3 or more). *)
Lemma continueStroke_drawing (env : Env) (e : PointerEvent) (st : State)
    (path : ref) (el : Element) :
  drawing st = true → currentPath st = Some path →
  currentPoints st ≠ [] → heap st !! path = Some el →
  getAttribute "d" el = Some (path_data (rendered_segs (currentPoints st))) →
  let pts := currentPoints st ++ [getSvgPoint env e] in
  continueStroke env e st =
    (Normal,
     {| drawing := true; currentPath := Some path; currentPoints := pts;
        strokeHistory := strokeHistory st; strokesGroup := strokesGroup st;
        heap := <[path := setAttribute "d" (path_data (rendered_segs pts)) el]>
                  (heap st);
        next_ref := next_ref st; pointerCapture := pointerCapture st |}).
Proof.
  intros Hdr Hcp Hne Hel Hd pts. unfold continueStroke.
  rewrite Hdr, Hcp. fold pts.
  assert (2 ≤ length pts) as Hlen.
  { unfold pts. rewrite length_app. cbn [length].
    destruct (currentPoints st); [done | cbn [length]; lia]. }
  destruct (length pts <? 3) eqn:Hlt.
  - apply Nat.ltb_lt in Hlt.
    unfold pts in *. clear pts.
    destruct (currentPoints st) as [|q [|q' rest]] eqn:Hpts;
      [done | | rewrite length_app in Hlt; cbn [length] in Hlt; lia].
    do 2 f_equal.
    rewrite (alter_lookup_insert _ _ el) by done.
    by rewrite Hd.
  - rewrite (smooth_d_rendered pts Hlen).
    do 2 f_equal.
    by rewrite (alter_lookup_insert _ _ el).
Qed.

Lemma Inv_continueStroke (env : Env) (e : PointerEvent) (st : State) :
  Inv st → Inv (continueStroke env e st).2.
Proof.
  intros HI. destruct (drawing st) eqn:Hdr;
    [|unfold continueStroke; by rewrite Hdr].
  destruct (currentPath st) as [path|] eqn:Hcp;
    [|unfold continueStroke; by rewrite Hdr, Hcp].
  destruct HI as [Hnd Hglt Hhlt _ Hcur Hhist].
  destruct (Hcur path Hcp) as (Hlt & Hnh & Hne & el & Hel & Hd).
  rewrite (continueStroke_drawing env e st path el) by done.
  split; cbn; try done.
  - intros r [= <-]. split_and!; [done | done | by destruct (currentPoints st) |].
    eexists. split; [apply lookup_insert_eq|].
    unfold getAttribute, setAttribute. cbn. apply lookup_insert_eq.
  - intros r Hr. destruct (Hhist r Hr) as (pts & Hlen & el' & Hel' & Hd').
    exists pts. split; [done|]. exists el'. split; [|done]. cbn.
    rewrite lookup_insert_ne; [done|]. by intros ->.
Qed.

Lemma Inv_endStroke (env : Env) (e : PointerEvent) (st : State) :
  Inv st → Inv (endStroke env e st).2.
Proof.
  intros HI. unfold endStroke. destruct (drawing st) eqn:Hdr; [|done].
  destruct HI as [Hnd Hglt Hhlt _ Hcur Hhist]. cbn [negb].
  destruct (currentPath st) as [path|] eqn:Hcp; [|by split].
  destruct (Hcur path eq_refl) as (Hlt & Hnh & Hne & el & Hel & Hd).
  destruct (length (currentPoints st) <? 2) eqn:Hlen.
  - destruct (removeChild path (strokesGroup st)) as [kids|] eqn:Hrm.
    + destruct (removeChild_Some _ _ _ Hrm Hnd) as [Hnd' Hin].
      split; cbn; try done.
      intros r [Hr _]%Hin. by apply Hglt.
    + by split.
  - apply Nat.ltb_ge in Hlen. split; cbn; try done.
    + intros r [Hr| ->%list_elem_of_singleton]%elem_of_app; [by apply Hhlt | done].
    + intros r Hr. destruct (decide (r = path)) as [->|Hrp].
      * exists (currentPoints st). split; [done|]. eexists. split.
        -- cbn. rewrite lookup_alter_eq, Hel. done.
        -- unfold getAttribute, setAttribute in *. cbn.
           by rewrite !lookup_insert_ne.
      * apply elem_of_app in Hr as [Hr| ->%list_elem_of_singleton]; [|done].
        destruct (Hhist r Hr) as (pts & Hl & el' & Hel' & Hd').
        exists pts. split; [done|]. exists el'. split; [|done]. cbn.
        by rewrite lookup_alter_ne.
Qed.

Lemma Inv_undoLast (st : State) : Inv st → Inv (undoLast st).2.
Proof.
  intros [Hnd Hglt Hhlt Hdr Hcur Hhist]. unfold undoLast, pop.
  assert (NoDup (match last (strokeHistory st) with
                 | Some l => without l (strokesGroup st)
                 | None => strokesGroup st end)
          ∧ ∀ r, r ∈ (match last (strokeHistory st) with
                      | Some l => without l (strokesGroup st)
                      | None => strokesGroup st end) → r ∈ strokesGroup st)
    as [Hnd' Hsub].
  { destruct (last (strokeHistory st)) as [l|]; [|done].
    destruct (without_spec l _ Hnd) as [? Hin]. split; [done|].
    by intros r [? _]%Hin. }
  split; cbn; try done.
  - intros r Hr%Hsub. by apply Hglt.
  - intros r Hr%elem_of_removelast. by apply Hhlt.
  - intros r Hr. destruct (Hcur r Hr) as (? & Hnh & ? & ?).
    split_and!; try done. intros ?%elem_of_removelast. done.
  - intros r Hr%elem_of_removelast. by apply Hhist.
Qed.

Lemma Inv_clearAll (st : State) : Inv st → Inv (clearAll st).2.
Proof.
  intros [Hnd Hglt Hhlt Hdr Hcur Hhist]. unfold clearAll.
  split; cbn; rewrite ?removeAllChildren_nil; try done.
  - apply NoDup_nil_2.
  - by intros r ?%elem_of_nil.
  - by intros r ?%elem_of_nil.
  - intros r Hr. destruct (Hcur r Hr) as (? & _ & ? & ?).
    split_and!; try done. apply not_elem_of_nil.
  - by intros r ?%elem_of_nil.
Qed.

Lemma Inv_dispatch (a : Action) (st : State) : Inv st → Inv (dispatch a st).2.
Proof.
  intros HI. destruct a as [env e|env e|env e|env e|env e| | | |k]; cbn [dispatch].
  - by apply Inv_beginStroke.
  - by apply Inv_continueStroke.
  - by apply Inv_endStroke.
  - by apply Inv_endStroke.
  - done.
  - by apply Inv_clearAll.
  - by apply Inv_undoLast.
  - done.
  - unfold onKeyDown. destruct (_ && _); [by apply Inv_undoLast | done].
Qed.

Lemma reachable_Inv (st : State) : reachable st → Inv st.
Proof.
  induction 1 as [st Hi|a st _ IH]; [by apply Inv_initial | by apply Inv_dispatch].
Qed.

Lemma reachable_run (acts : list Action) (st : State) :
  reachable st → reachable (run acts st).
Proof.
  revert st. induction acts as [|a acts IH]; intros st Hr; [done|].
  apply IH. by constructor.
Qed.


(** ** Counting points *)

Lemma count_commands_app (s1 s2 : string) :
  count_commands (s1 +:+ s2) = count_commands s1 + count_commands s2.
Proof.
  induction s1 as [|c s1 IH]; [done|].
  change (String c s1 +:+ s2) with (String c (s1 +:+ s2)).
  cbn [count_commands]. rewrite IH. lia.
Qed.

Lemma count_commands_coords (p : Point) : count_commands (coords p) = 0.
Proof.
  unfold coords. by rewrite !count_commands_app, !number_to_string_plain.
Qed.

Lemma count_commands_seg (s : PathSeg) : count_commands (seg_string s) = 1.
Proof.
  destruct s; unfold seg_string;
    by rewrite !count_commands_app, !count_commands_coords.
Qed.

Lemma count_commands_append_segs (d : string) (segs : list PathSeg) :
  count_commands (append_segs d segs) = count_commands d + length segs.
Proof.
  revert d. induction segs as [|s segs IH]; intros d; cbn [append_segs length];
    [lia|].
  rewrite IH, !count_commands_app, count_commands_seg. cbn. lia.
Qed.

Lemma count_commands_path_data (segs : list PathSeg) :
  count_commands (path_data segs) = length segs.
Proof.
  destruct segs as [|s segs]; [done|]. unfold path_data.
  rewrite count_commands_append_segs, count_commands_seg. done.
Qed.

Lemma drawn_point_count (st : State) (r : ref) (pts : list Point) (el : Element) :
  heap st !! r = Some el → drawn st r pts → point_count el = length pts.
Proof.
  intros Hel (el' & Hel' & Hd). simplify_eq. unfold point_count.
  rewrite Hd.
  change (count_commands (path_data (rendered_segs pts)) = length pts).
  by rewrite count_commands_path_data, rendered_segs_length.
Qed.

(** ** One gesture *)

(** Between pointer-down and release, whatever else happens on the page, the
    stroke in progress keeps every sample, in order, and its element carries
    the path text of all of them. *)
Lemma gesture_progress (acts : list Action) (s : State) (r : ref) :
  Forall mid_gesture acts →
  drawing s = true → currentPath s = Some r → currentPoints s ≠ [] →
  drawn s r (currentPoints s) →
  drawing (run acts s) = true ∧ currentPath (run acts s) = Some r ∧
  currentPoints (run acts s) = currentPoints s ++ samples_of acts ∧
  drawn (run acts s) r (currentPoints (run acts s)) ∧
  next_ref (run acts s) = next_ref s.
Proof.
  intros Hall. revert s.
  induction Hall as [|a acts Ha _ IH]; intros s Hdr Hcp Hne Hd.
  { cbn. by rewrite app_nil_r. }
  assert (drawing (dispatch a s).2 = true ∧ currentPath (dispatch a s).2 = Some r ∧
          currentPoints (dispatch a s).2 = currentPoints s ++ option_list (sample_of a) ∧
          drawn (dispatch a s).2 r (currentPoints (dispatch a s).2) ∧
          next_ref (dispatch a s).2 = next_ref s) as (Hdr1 & Hcp1 & Hpts1 & Hd1 & Hn1).
  { destruct a as [env e|env e|env e|env e|env e| | | |k]; try done;
      cbn [dispatch sample_of option_list]; rewrite ?app_nil_r; try done.
    - destruct Hd as (el & Hel & Hdel).
      rewrite (continueStroke_drawing env e s r el) by done. cbn.
      split_and!; try done. eexists. split; [apply lookup_insert_eq|].
      unfold getAttribute, setAttribute. cbn. apply lookup_insert_eq.
    - unfold onKeyDown. by destruct (_ && _). }
  destruct (IH (dispatch a s).2) as (Hdr2 & Hcp2 & Hpts2 & Hd2 & Hn2); try done.
  { rewrite Hpts1. by destruct (currentPoints s). }
  change (run (a :: acts) s) with (run acts (dispatch a s).2).
  split_and!; try done; [|congruence].
  rewrite Hpts2, Hpts1, <- (assoc_L (++)). f_equal.
  unfold samples_of. cbn [omap list_omap]. by destruct (sample_of a).
Qed.

Lemma beginStroke_accepted (env : Env) (e : PointerEvent) (st : State) :
  filtered e = false →
  let st1 := (beginStroke env e st).2 in
  drawing st1 = true ∧ currentPath st1 = Some (next_ref st) ∧
  currentPoints st1 = [getSvgPoint env e] ∧
  strokeHistory st1 = strokeHistory st ∧
  strokesGroup st1 = strokesGroup st ++ [next_ref st] ∧
  next_ref st1 = S (next_ref st) ∧
  drawn st1 (next_ref st) [getSvgPoint env e].
Proof.
  intros Hf. unfold beginStroke. rewrite Hf. cbn. split_and!; try done.
  eexists. split; [apply lookup_insert_eq | apply new_path_d].
Qed.

(** What the release handler does to a stroke of two or more points. *)
Lemma endStroke_commit (env : Env) (e : PointerEvent) (st : State)
    (r : ref) (el : Element) :
  drawing st = true → currentPath st = Some r →
  2 ≤ length (currentPoints st) → heap st !! r = Some el →
  endStroke env e st =
    (Normal,
     {| drawing := false; currentPath := None; currentPoints := [];
        strokeHistory := strokeHistory st ++ [r];
        strokesGroup := strokesGroup st;
        heap := <[r := setAttribute "stroke-width" (widthRange_value env)
                          (setAttribute "stroke" (colorPicker_value env) el)]>
                  (heap st);
        next_ref := next_ref st;
        pointerCapture :=
          releasePointerCapture (pointerId e) (pointerCapture st) |}).
Proof.
  intros Hdr Hcp Hlen Hel. unfold endStroke. rewrite Hdr, Hcp. cbn [negb].
  destruct (length (currentPoints st) <? 2) eqn:Hlt;
    [apply Nat.ltb_lt in Hlt; lia|].
  do 2 f_equal. by rewrite (alter_lookup_insert _ _ el).
Qed.


(** * The claims *)

(** C1. In every reachable state, an active stroke with [n >= 3] recorded
    points is rendered as: a move to [P[0]]; for each interior index
    [i = 1 .. n-2] a quadratic segment with control point [P[i]] ending at
    the midpoint of [P[i]] and [P[i+1]]; and a final line to the last
    recorded point [P[n-1]].  The text is the one that the smoothing code of
    [continueStroke] builds from the point list, and it has one segment per
    point. *)
Theorem active_stroke_is_quadratic_chain (st : State) (r : ref) :
  reachable st → currentPath st = Some r → 3 ≤ length (currentPoints st) →
  ∃ el segs,
    heap st !! r = Some el ∧
    getAttribute "d" el = Some (path_data segs) ∧
    smooth_d (currentPoints st) = Some (path_data segs) ∧
    length segs = length (currentPoints st) ∧
    segs !! 0 = MoveTo <$> currentPoints st !! 0 ∧
    (∀ i, 1 ≤ i ≤ length (currentPoints st) - 2 →
       ∃ c n, currentPoints st !! i = Some c ∧
              currentPoints st !! (i + 1) = Some n ∧
              segs !! i = Some (QuadTo c (midpoint c n))) ∧
    segs !! (length (currentPoints st) - 1) = LineTo <$> last (currentPoints st).
Proof.
  intros Hreach Hcp Hlen.
  destruct (inv_current _ (reachable_Inv _ Hreach) r Hcp)
    as (_ & _ & _ & el & Hel & Hd).
  exists el, (rendered_segs (currentPoints st)).
  split_and!; [done | done | | | | |].
  - apply smooth_d_rendered. lia.
  - apply rendered_segs_length.
  - destruct (currentPoints st !! 0) as [p0|] eqn:H0.
    + by apply rendered_segs_head.
    + apply lookup_ge_None in H0. lia.
  - intros i [Hi1 Hi2].
    destruct (lookup_lt_is_Some_2 (currentPoints st) i) as [c Hc]; [lia|].
    destruct (lookup_lt_is_Some_2 (currentPoints st) (i + 1)) as [n Hn]; [lia|].
    exists c, n. split_and!; [done | done |]. by apply rendered_segs_quad.
  - destruct (last (currentPoints st)) as [l|] eqn:Hl.
    + apply rendered_segs_last; [lia | done].
    + apply last_None in Hl. rewrite Hl in Hlen. cbn in Hlen. lia.
Qed.

(** C2. A gesture is an accepted pointer-down, any events other than a
    pointer-down or a release, and a release.  When it has recorded at least
    two samples (the one of the pointer-down and one per pointer-move), the
    recorded list is exactly the samples received, in order, and the release
    handler returns normally, appends exactly one element to the history,
    and that element has as many points as samples were received. *)
Theorem gesture_commits_every_sample (st : State) (env0 : Env)
    (e0 : PointerEvent) (acts : list Action) (envu : Env) (eu : PointerEvent) :
  filtered e0 = false → Forall mid_gesture acts → samples_of acts ≠ [] →
  let st1 := run (PointerDown env0 e0 :: acts) st in
  let received := getSvgPoint env0 e0 :: samples_of acts in
  currentPoints st1 = received ∧
  ∃ st2 el,
    endStroke envu eu st1 = (Normal, st2) ∧
    strokeHistory st2 = strokeHistory st1 ++ [next_ref st] ∧
    length (strokeHistory st2) = S (length (strokeHistory st1)) ∧
    heap st2 !! next_ref st = Some el ∧
    point_count el = length received.
Proof.
  intros Hf Hall Hne st1 received.
  destruct (beginStroke_accepted env0 e0 st Hf)
    as (Hdr & Hcp & Hpts & _ & _ & _ & Hd).
  destruct (gesture_progress acts (beginStroke env0 e0 st).2 (next_ref st))
    as (Hdr1 & Hcp1 & Hpts1 & Hd1 & _); try done.
  { by rewrite Hpts. }
  { by rewrite Hpts. }
  change (run acts (beginStroke env0 e0 st).2) with st1 in *.
  rewrite Hpts in Hpts1. change ([getSvgPoint env0 e0] ++ samples_of acts)
    with received in Hpts1.
  split; [done|].
  destruct Hd1 as (el & Hel & Hdel).
  assert (2 ≤ length (currentPoints st1)) as Hlen.
  { rewrite Hpts1. unfold received. cbn [length].
    destruct (samples_of acts); [done | cbn [length]; lia]. }
  eexists _, _. split; [by apply (endStroke_commit envu eu st1 (next_ref st) el)|].
  cbn. split_and!; [done | rewrite length_app; cbn; lia | apply lookup_insert_eq |].
  unfold point_count, getAttribute, setAttribute. cbn.
  rewrite !lookup_insert_ne by done.
  unfold getAttribute in Hdel. rewrite Hdel, Hpts1.
  change (count_commands (path_data (rendered_segs received)) = length received).
  by rewrite count_commands_path_data, rendered_segs_length.
Qed.

(** C3. In every reachable state, every element of the stroke history has at
    least 2 points; and when a stroke in progress has fewer than 2 recorded
    points, the release handler leaves its element out of the scene and
    leaves the stroke history unchanged. *)
Theorem history_strokes_have_two_points (st : State) :
  reachable st →
  (∀ r, r ∈ strokeHistory st →
     ∃ el, heap st !! r = Some el ∧ 2 ≤ point_count el) ∧
  (∀ env e r,
     drawing st = true → currentPath st = Some r →
     length (currentPoints st) < 2 →
     strokeHistory (endStroke env e st).2 = strokeHistory st ∧
     (r ∉ strokesGroup (endStroke env e st).2) ∧
     ∀ r', r' ≠ r →
       (r' ∈ strokesGroup (endStroke env e st).2 ↔ r' ∈ strokesGroup st)).
Proof.
  intros Hreach. pose proof (reachable_Inv _ Hreach) as HI. split.
  - intros r Hr. destruct (inv_hist _ HI r Hr) as (pts & Hlen & el & Hel & Hd).
    exists el. split; [done|].
    rewrite (drawn_point_count st r pts); [done | done | by exists el].
  - intros env e r Hdr Hcp Hlen. unfold endStroke. rewrite Hdr, Hcp. cbn [negb].
    apply Nat.ltb_lt in Hlen. rewrite Hlen.
    destruct (removeChild r (strokesGroup st)) as [kids|] eqn:Hrm; cbn.
    + destruct (removeChild_Some _ _ _ Hrm (inv_nodup _ HI)) as [_ Hin].
      split_and!; [done | |].
      * rewrite Hin. by intros [_ ?].
      * intros r' Hne. rewrite Hin. split; [by intros [? _] | done].
    + apply removeChild_None in Hrm. done.
Qed.

(** C4. After a move sample on a stroke in progress, the sample has been
    pushed and the path text of the element is the text of the curve that
    section 4.3 prescribes for the whole point list; it is also the text
    that the from-scratch smoothing code builds from that list, whether the
    handler rebuilt the text (3 points or more) or appended a line to it
    (2 points). *)
Theorem move_sample_matches_spec_curve (st : State) (env : Env)
    (e : PointerEvent) (r : ref) :
  reachable st → drawing st = true → currentPath st = Some r →
  let st' := (continueStroke env e st).2 in
  (continueStroke env e st).1 = Normal ∧
  currentPoints st' = currentPoints st ++ [getSvgPoint env e] ∧
  ∃ el, heap st' !! r = Some el ∧
        getAttribute "d" el = Some (path_data (spec_curve (currentPoints st'))) ∧
        smooth_d (currentPoints st') = getAttribute "d" el.
Proof.
  intros Hreach Hdr Hcp.
  destruct (inv_current _ (reachable_Inv _ Hreach) r Hcp)
    as (_ & _ & Hne & el & Hel & Hd).
  rewrite (continueStroke_drawing env e st r el) by done. cbn.
  assert (2 ≤ length (currentPoints st ++ [getSvgPoint env e])) as Hlen.
  { rewrite length_app. cbn [length].
    destruct (currentPoints st); [done | cbn [length]; lia]. }
  split_and!; [done | done |]. eexists. split; [apply lookup_insert_eq|].
  unfold getAttribute, setAttribute. cbn. rewrite lookup_insert_eq.
  by rewrite spec_curve_rendered, smooth_d_rendered.
Qed.


(** C5. Undo on a non-empty history returns normally, removes exactly the
    most recently committed stroke (the history loses its last element and
    nothing else), leaves that stroke's element out of the scene and every
    other child in place; undo on an empty history returns normally and
    changes nothing. *)
Theorem undoLast_removes_last_stroke (st : State) :
  reachable st →
  (∀ h l, strokeHistory st = h ++ [l] →
     (undoLast st).1 = Normal ∧
     strokeHistory (undoLast st).2 = h ∧
     S (length (strokeHistory (undoLast st).2)) = length (strokeHistory st) ∧
     (l ∉ strokesGroup (undoLast st).2) ∧
     ∀ r, r ≠ l → (r ∈ strokesGroup (undoLast st).2 ↔ r ∈ strokesGroup st)) ∧
  (strokeHistory st = [] → undoLast st = (Normal, st)).
Proof.
  intros Hreach. pose proof (inv_nodup _ (reachable_Inv _ Hreach)) as Hnd. split.
  - intros h l Hh. unfold undoLast, pop. rewrite Hh, last_snoc, removelast_last.
    cbn. destruct (without_spec l _ Hnd) as [_ Hin].
    split_and!; [done | done | rewrite length_app; cbn; lia | |].
    + rewrite Hin. by intros [_ ?].
    + intros r Hr. rewrite Hin. split; [by intros [? _] | done].
  - intros Hh. unfold undoLast, pop. rewrite Hh. cbn.
    destruct st; cbn in *. by subst.
Qed.

(** C6. Clear returns normally and leaves an empty stroke history and an
    empty scene group, whatever the state before, the empty one included. *)
Theorem clearAll_empties_history_and_scene (st : State) :
  (clearAll st).1 = Normal ∧
  strokeHistory (clearAll st).2 = [] ∧
  strokesGroup (clearAll st).2 = [] ∧
  (dispatch ClearClick st) = clearAll st.
Proof.
  split_and!; [done | done | apply removeAllChildren_nil | done].
Qed.

(** C8. When a gesture of two or more points is released, the committed
    element is the last of the history and its [stroke] and [stroke-width]
    attributes are the values of the controls read by the release handler,
    whatever the controls held at the pointer-down. *)
Theorem endStroke_applies_release_controls (st : State) (env0 : Env)
    (e0 : PointerEvent) (acts : list Action) (envu : Env) (eu : PointerEvent) :
  filtered e0 = false → Forall mid_gesture acts → samples_of acts ≠ [] →
  let st1 := run (PointerDown env0 e0 :: acts) st in
  let st2 := (endStroke envu eu st1).2 in
  last (strokeHistory st2) = Some (next_ref st) ∧
  ∃ el, heap st2 !! next_ref st = Some el ∧
        getAttribute "stroke" el = Some (colorPicker_value envu) ∧
        getAttribute "stroke-width" el = Some (widthRange_value envu).
Proof.
  intros Hf Hall Hne st1 st2.
  destruct (beginStroke_accepted env0 e0 st Hf)
    as (Hdr & Hcp & Hpts & _ & _ & _ & Hd).
  destruct (gesture_progress acts (beginStroke env0 e0 st).2 (next_ref st))
    as (Hdr1 & Hcp1 & Hpts1 & (el & Hel & _) & _); try done.
  { by rewrite Hpts. }
  { by rewrite Hpts. }
  change (run acts (beginStroke env0 e0 st).2) with st1 in *.
  assert (2 ≤ length (currentPoints st1)) as Hlen.
  { rewrite Hpts1, Hpts, length_app. cbn [length].
    destruct (samples_of acts); [done | cbn [length]; lia]. }
  unfold st2. rewrite (endStroke_commit envu eu st1 (next_ref st) el) by done.
  cbn. split; [apply last_snoc|].
  eexists. split; [apply lookup_insert_eq|].
  unfold getAttribute, setAttribute. cbn.
  split; [by rewrite lookup_insert_ne, lookup_insert_eq | apply lookup_insert_eq].
Qed.

Lemma abandoned_dispatch (old : ref) (a : Action) (s : State) :
  abandoned old s → abandoned old (dispatch a s).2.
Proof.
  intros (HI & Hlt & Hcp & Hh).
  split; [by apply Inv_dispatch|]. clear HI.
  assert (abandoned_undo : old < next_ref (undoLast s).2
            ∧ currentPath (undoLast s).2 ≠ Some old
            ∧ old ∉ strokeHistory (undoLast s).2).
  { unfold undoLast, pop. cbn. split_and!; [done | done |].
    by intros ?%elem_of_removelast. }
  destruct a as [env e|env e|env e|env e|env e| | | |k]; cbn [dispatch];
    try done.
  - unfold beginStroke. destruct (filtered e); cbn; [done|].
    split_and!; [lia | | done]. intros [= Heq]. lia.
  - unfold continueStroke.
    repeat case_match; cbn; split_and!; try done; congruence.
  - unfold endStroke. destruct (drawing s); [|done]. cbn [negb].
    destruct (currentPath s) as [path|]; [|done].
    destruct (_ <? 2); [by destruct (removeChild _ _)|]. cbn.
    split_and!; [done | done |].
    intros [?| ->%list_elem_of_singleton]%elem_of_app; done.
  - unfold endStroke. destruct (drawing s); [|done]. cbn [negb].
    destruct (currentPath s) as [path|]; [|done].
    destruct (_ <? 2); [by destruct (removeChild _ _)|]. cbn.
    split_and!; [done | done |].
    intros [?| ->%list_elem_of_singleton]%elem_of_app; done.
  - unfold clearAll. cbn. split_and!; [done | done | apply not_elem_of_nil].
  - unfold onKeyDown. by destruct (_ && _).
Qed.

Lemma abandoned_run (old : ref) (acts : list Action) (s : State) :
  abandoned old s → abandoned old (run acts s).
Proof.
  revert s. induction acts as [|a acts IH]; intros s Hs; [done|].
  apply IH. by apply abandoned_dispatch.
Qed.

(** Only Clear takes an abandoned element out of the scene. *)
Lemma abandoned_stays (old : ref) (a : Action) (s : State) :
  abandoned old s → a ≠ ClearClick → old ∈ strokesGroup s →
  old ∈ strokesGroup (dispatch a s).2.
Proof.
  intros (HI & Hlt & Hcp & Hh) Ha Hin.
  pose proof (inv_nodup _ HI) as Hnd.
  assert (old ∈ strokesGroup (undoLast s).2) as Hundo.
  { unfold undoLast, pop. cbn. destruct (last (strokeHistory s)) as [l|] eqn:Hl;
      [|done].
    apply (without_spec l _ Hnd). split; [done|]. intros ->.
    by apply last_Some_elem_of in Hl. }
  assert (∀ env e, old ∈ strokesGroup (endStroke env e s).2) as Hend.
  { intros env e. unfold endStroke. destruct (drawing s); [|done]. cbn [negb].
    destruct (currentPath s) as [path|]; [|done].
    destruct (_ <? 2); [|done].
    destruct (removeChild path (strokesGroup s)) as [kids|] eqn:Hrm; [|done].
    cbn. apply (removeChild_Some _ _ _ Hrm Hnd). split; [done|]. by intros ->. }
  destruct a as [env e|env e|env e|env e|env e| | | |k]; cbn [dispatch];
    try done.
  - unfold beginStroke. destruct (filtered e); cbn; [done|].
    apply elem_of_app. by left.
  - unfold continueStroke.
    repeat case_match; by cbn.
  - unfold onKeyDown. by destruct (_ && _).
Qed.

Lemma abandoned_stays_run (old : ref) (acts : list Action) (s : State) :
  abandoned old s → old ∈ strokesGroup s → ClearClick ∉ acts →
  old ∈ strokesGroup (run acts s).
Proof.
  revert s. induction acts as [|a acts IH]; intros s Hab Hold Hnc; [done|].
  apply not_elem_of_cons in Hnc as [Ha Hnc].
  apply IH; [by apply abandoned_dispatch | | done].
  apply abandoned_stays; [done | congruence | done].
Qed.

(** C10. When an accepted pointer-down arrives while a stroke is in
    progress, a fresh element becomes the current path, drawn from the new
    position alone, and the recorded points are replaced by that position;
    the scene keeps all its children, the previous element among them if it
    was there, and gains the fresh one.  Whatever events follow, the
    previous element never enters the stroke history, and it stays in the
    scene for as long as Clear is not used: no undo removes it. *)
Theorem second_pointer_down_abandons_path (st : State) (env : Env)
    (e : PointerEvent) (old : ref) :
  reachable st → drawing st = true → currentPath st = Some old →
  filtered e = false →
  let st1 := (beginStroke env e st).2 in
  (beginStroke env e st).1 = Normal ∧
  next_ref st ≠ old ∧
  drawing st1 = true ∧ currentPath st1 = Some (next_ref st) ∧
  currentPoints st1 = [getSvgPoint env e] ∧
  drawn st1 (next_ref st) [getSvgPoint env e] ∧
  strokesGroup st1 = strokesGroup st ++ [next_ref st] ∧
  strokeHistory st1 = strokeHistory st ∧
  (∀ acts, old ∉ strokeHistory (run acts st1)) ∧
  (∀ acts, old ∈ strokesGroup st → ClearClick ∉ acts →
           old ∈ strokesGroup (run acts st1)).
Proof.
  intros Hreach Hdr Hcp Hf st1.
  pose proof (reachable_Inv _ Hreach) as HI.
  destruct (inv_current _ HI old Hcp) as (Hlt & Hnh & _ & _).
  destruct (beginStroke_accepted env e st Hf)
    as (Hdr1 & Hcp1 & Hpts1 & Hh1 & Hg1 & Hn1 & Hd1).
  fold st1 in Hdr1, Hcp1, Hpts1, Hh1, Hg1, Hn1, Hd1.
  assert (abandoned old st1) as Hab.
  { split_and!.
    - by apply Inv_beginStroke.
    - rewrite Hn1. lia.
    - rewrite Hcp1. intros [= Heq]. lia.
    - by rewrite Hh1. }
  split_and!; try done.
  - unfold beginStroke. by rewrite Hf.
  - lia.
  - intros acts. by apply abandoned_run.
  - intros acts Hin Hnc. apply abandoned_stays_run; [done | | done].
    rewrite Hg1. apply elem_of_app. by left.
Qed.

(** Refutes the membership [H] of an effect in a list of effects built with
    other constructors. *)
Ltac not_in_effects H :=
  repeat (apply elem_of_cons in H as [H|H]; [discriminate H|]);
  apply elem_of_nil in H.

(** C9. Export never changes the state.  When the image fails to load, the
    error callback raises the notice and triggers no download; the download
    is triggered by the load callback only, which raises no notice. *)
Theorem saveAsPng_failure_alerts_without_download (st : State) :
  (saveAsPng st).2 = st ∧
  (dispatch SaveClick st).2 = st ∧
  (∃ message, Alert message ∈ fire (saveAsPng st).1 Failed) ∧
  (∀ href name, DownloadClick href name ∉ fire (saveAsPng st).1 Failed) ∧
  (∀ now,
     (∃ href name, DownloadClick href name ∈ fire (saveAsPng st).1 (Loaded now)) ∧
     (∀ message, Alert message ∉ fire (saveAsPng st).1 (Loaded now))).
Proof.
  split_and!; [done | done | | |].
  - eexists. cbn. by repeat constructor.
  - intros href name Hin. cbn in Hin. by not_in_effects Hin.
  - intros now. split.
    + eexists _, _. cbn. by repeat constructor.
    + intros message Hin. cbn in Hin. by not_in_effects Hin.
Qed.

End Properties.

(** * The claims on the sample inputs *)

Lemma sample_initial_reachable : reachable (api := sample_api) sample_initial.
Proof.
  apply reachable_initial. unfold initial, sample_initial. cbn.
  split_and!; try done; [apply NoDup_nil_2 | by intros r ?%elem_of_nil].
Qed.

Lemma active_stroke_is_quadratic_chain_witness :
  let st := run (api := sample_api) (sample_down :: sample_moves) sample_initial in
  ∃ el segs,
    heap st !! 0 = Some el ∧
    getAttribute "d" el = Some (path_data (api := sample_api) segs) ∧
    smooth_d (api := sample_api) (currentPoints st) = Some (path_data (api := sample_api) segs) ∧
    length segs = length (currentPoints st) ∧
    segs !! 0 = MoveTo <$> currentPoints st !! 0 ∧
    (∀ i, 1 ≤ i ≤ length (currentPoints st) - 2 →
       ∃ c n, currentPoints st !! i = Some c ∧
              currentPoints st !! (i + 1) = Some n ∧
              segs !! i = Some (QuadTo c (midpoint c n))) ∧
    segs !! (length (currentPoints st) - 1) = LineTo <$> last (currentPoints st).
Proof.
  intros st.
  apply (active_stroke_is_quadratic_chain (api := sample_api) st 0).
  - apply reachable_run, sample_initial_reachable.
  - reflexivity.
  - vm_compute. lia.
Defined.

Lemma gesture_commits_every_sample_witness :
  let st1 := run (api := sample_api) (sample_down :: sample_moves) sample_initial in
  currentPoints st1
  = getSvgPoint sample_env (sample_event 0 0) :: samples_of sample_moves ∧
  ∃ st2 el,
    endStroke sample_env_release (sample_event 10 0) st1
    = (Normal, st2) ∧
    strokeHistory st2 = strokeHistory st1 ++ [0] ∧
    length (strokeHistory st2) = S (length (strokeHistory st1)) ∧
    heap st2 !! 0 = Some el ∧
    point_count el = 3.
Proof.
  apply (gesture_commits_every_sample (api := sample_api) sample_initial
           sample_env (sample_event 0 0) sample_moves
           sample_env_release (sample_event 10 0)).
  - reflexivity.
  - repeat constructor.
  - discriminate.
Defined.

(** A second pointer-down after a committed stroke: the history holds the
    element 0, and the element 1 is a stroke in progress with one point. *)
Definition sample_tap : list Action :=
  sample_down :: sample_moves ++ [sample_up; sample_down].

Lemma history_strokes_have_two_points_witness :
  let st := run (api := sample_api) sample_tap sample_initial in
  (∃ el, heap st !! 0 = Some el ∧ 2 ≤ point_count el) ∧
  strokeHistory (endStroke sample_env (sample_event 0 0) st).2
  = strokeHistory st ∧
  1 ∉ strokesGroup (endStroke sample_env (sample_event 0 0) st).2.
Proof.
  intros st.
  destruct (history_strokes_have_two_points (api := sample_api) st) as [Hhist Htap].
  - apply reachable_run, sample_initial_reachable.
  - split.
    + apply Hhist. apply (list_elem_of_here 0 []).
    + destruct (Htap sample_env (sample_event 0 0) 1) as (Hh & Hout & _).
      * reflexivity.
      * reflexivity.
      * vm_compute. lia.
      * split; [exact Hh | exact Hout].
Defined.

Lemma move_sample_matches_spec_curve_witness :
  let st := run (api := sample_api) [sample_down] sample_initial in
  let res := continueStroke (api := sample_api) sample_env (sample_event 5 5) st in
  res.1 = Normal ∧
  currentPoints res.2
  = currentPoints st ++ [getSvgPoint sample_env (sample_event 5 5)] ∧
  ∃ el, heap res.2 !! 0 = Some el ∧
        getAttribute "d" el
        = Some (path_data (api := sample_api) (spec_curve (currentPoints res.2))) ∧
        smooth_d (api := sample_api) (currentPoints res.2) = getAttribute "d" el.
Proof.
  intros st res.
  apply (move_sample_matches_spec_curve (api := sample_api) st sample_env
           (sample_event 5 5) 0).
  - apply reachable_run, sample_initial_reachable.
  - reflexivity.
  - reflexivity.
Defined.

Lemma undoLast_removes_last_stroke_witness :
  let st := run (api := sample_api) (sample_down :: sample_moves ++ [sample_up])
              sample_initial in
  strokeHistory st = [0] ∧
  (undoLast st).1 = Normal ∧
  strokeHistory (undoLast st).2 = [] ∧
  0 ∉ strokesGroup (undoLast st).2.
Proof.
  intros st.
  destruct (undoLast_removes_last_stroke (api := sample_api) st) as [Hlast _].
  - apply reachable_run, sample_initial_reachable.
  - destruct (Hlast [] 0) as (Hn & Hh & _ & Hout & _).
    + reflexivity.
    + split_and!; [reflexivity | exact Hn | exact Hh | exact Hout].
Defined.

Lemma endStroke_applies_release_controls_witness :
  let st1 := run (api := sample_api) (sample_down :: sample_moves) sample_initial in
  let st2 :=
    (endStroke sample_env_release (sample_event 10 0) st1).2 in
  last (strokeHistory st2) = Some 0 ∧
  ∃ el, heap st2 !! 0 = Some el ∧
        getAttribute "stroke" el = Some "#ff0000" ∧
        getAttribute "stroke-width" el = Some "5".
Proof.
  apply (endStroke_applies_release_controls (api := sample_api) sample_initial
           sample_env (sample_event 0 0) sample_moves
           sample_env_release (sample_event 10 0)).
  - reflexivity.
  - repeat constructor.
  - discriminate.
Defined.

Lemma second_pointer_down_abandons_path_witness :
  let st := run (api := sample_api) [sample_down] sample_initial in
  let st1 := (beginStroke (api := sample_api) sample_env (sample_event 7 7) st).2 in
  currentPath st = Some 0 ∧
  currentPath st1 = Some 1 ∧
  currentPoints st1 = [getSvgPoint sample_env (sample_event 7 7)] ∧
  strokesGroup st1 = [0; 1] ∧
  (∀ acts, 0 ∉ strokeHistory (run (api := sample_api) acts st1)) ∧
  (∀ acts, ClearClick ∉ acts → 0 ∈ strokesGroup (run (api := sample_api) acts st1)).
Proof.
  intros st st1.
  destruct (second_pointer_down_abandons_path (api := sample_api) st sample_env
              (sample_event 7 7) 0)
    as (_ & _ & _ & Hcp & Hpts & _ & Hgroup & _ & Hnever & Hstays).
  - apply reachable_run, sample_initial_reachable.
  - reflexivity.
  - reflexivity.
  - reflexivity.
  - split_and!; [reflexivity | exact Hcp | exact Hpts | exact Hgroup | exact Hnever |].
    intros acts Hclear. apply Hstays; [|exact Hclear].
    apply (list_elem_of_here 0 []).
Defined.

(** * Scenarios *)

(** The scenario of section 8: the samples (0,0), (5,5), (10,0) are drawn and
    released; the history holds one stroke of three points; undo empties it;
    clear on the empty history returns normally and leaves it empty. *)
Example scenario_draw_undo_clear :
  let st := run (api := sample_api) (sample_down :: sample_moves ++ [sample_up])
              sample_initial in
  strokeHistory st = [0] ∧
  getAttribute "d" <$> heap st !! 0 = Some (Some "M 0 0 Q 5 5 15/2 5/2 L 10 0") ∧
  point_count <$> heap st !! 0 = Some 3 ∧
  getAttribute "stroke" <$> heap st !! 0 = Some (Some "#ff0000") ∧
  strokeHistory (run (api := sample_api) [UndoClick] st) = [] ∧
  strokesGroup (run (api := sample_api) [UndoClick] st) = [] ∧
  dispatch (api := sample_api) ClearClick (run (api := sample_api) [UndoClick] st)
  = (Normal, run (api := sample_api) [UndoClick] st).
Proof. vm_compute. repeat split. Qed.

(** With two points the handler appends a line to the text of the move. *)
Example scenario_two_points :
  let st := run (api := sample_api)
              [sample_down; PointerMove sample_env (sample_event 5 5)]
              sample_initial in
  getAttribute "d" <$> heap st !! 0 = Some (Some "M 0 0 L 5 5") ∧
  smooth_d (api := sample_api) (currentPoints st) = Some "M 0 0 L 5 5".
Proof. vm_compute. repeat split. Qed.

(** A tap commits nothing and takes its element out of the scene. *)
Example scenario_tap :
  let st := run (api := sample_api) [sample_down; sample_up] sample_initial in
  strokeHistory st = [] ∧ strokesGroup st = [] ∧ currentPath st = None.
Proof. vm_compute. repeat split. Qed.

(** Clear during a tap: the element has already left the scene, so the
    removal in the release handler throws; the history is still empty. *)
Example scenario_clear_during_tap :
  let res := endStroke sample_env_release (sample_event 0 0)
               (run (api := sample_api) [sample_down; ClearClick] sample_initial) in
  res.1 = Throw "NotFoundError" ∧
  strokeHistory res.2 = [] ∧ strokesGroup res.2 = [] ∧ drawing res.2 = false.
Proof. vm_compute. repeat split. Qed.

(** A second pointer-down during a drag: the first element stays in the
    scene and is not in the history after the release, so undo removes the
    second element only. *)
Example scenario_second_pointer_down :
  let st := run (api := sample_api)
              (sample_down :: sample_down :: sample_moves ++ [sample_up; UndoClick])
              sample_initial in
  strokeHistory st = [] ∧ strokesGroup st = [0].
Proof. vm_compute. repeat split. Qed.

(** * Further properties of the script *)

(** ** Keyboard shortcut *)

Lemma toLowerCase_z (k : string) :
  String.eqb (toLowerCase k) "z" = String.eqb k "z" || String.eqb k "Z".
Proof.
  destruct k as [|c [|c' r]]; [reflexivity | |].
  - destruct c as [[] [] [] [] [] [] [] []]; reflexivity.
  - cbn [toLowerCase]. cbn [String.eqb].
    destruct (Ascii.eqb (lower_ascii c) "z"), (Ascii.eqb c "z"), (Ascii.eqb c "Z");
      reflexivity.
Qed.

(** X3. The key listener runs undo exactly when Ctrl or Meta is held and the
    key is [z] or [Z] (the shifted key); every other key press leaves the
    state as it is. *)
Theorem onKeyDown_undo_iff (e : KeyboardEvent) (st : State) :
  onKeyDown e st =
    if (ctrlKey e || metaKey e)
       && (String.eqb (key e) "z" || String.eqb (key e) "Z")
    then undoLast st
    else (Normal, st).
Proof. unfold onKeyDown. by rewrite toLowerCase_z. Qed.

(** ** Namespace fix-up *)

Lemma after_tag_cons (ps : list RegexChar) (c : ascii) (s : string) :
  (c =? ">")%char = false → after_tag ps s = true →
  after_tag ps (String c s) = true.
Proof.
  intros Hc Hs. cbn [after_tag]. rewrite Hc, Hs. apply orb_true_r.
Qed.

Lemma strip_svg_Some (s rest : string) :
  strip_svg s = Some rest → s = "<svg" +:+ rest.
Proof.
  unfold strip_svg. intros H. repeat case_match; simplify_eq. exact eq_refl.
Qed.

Lemma addNamespaces_no_tag (s : string) :
  strip_svg s = None → addNamespaces s = s.
Proof.
  intros H. unfold addNamespaces, regex_test, replace_svg.
  rewrite H. cbn. by rewrite H.
Qed.

Lemma addNamespaces_present (s : string) :
  regex_test (regex_of xmlns_svg) s = true →
  regex_test (regex_of quoted_xlink) s = true →
  addNamespaces s = s.
Proof.
  intros H1 H2. unfold addNamespaces. rewrite H1. cbn [negb]. by rewrite H2.
Qed.

Lemma regex_test_inv (ps : list RegexChar) (rest : string) :
  regex_test ps ("<svg" +:+ rest) = true →
  ∃ c s', rest = String c s' ∧ (c =? ">")%char = false ∧ after_tag ps s' = true.
Proof.
  unfold regex_test. change (strip_svg ("<svg" +:+ rest)) with (Some rest).
  destruct rest as [|c s']; [done|].
  intros [Hc Hs]%andb_true_iff. exists c, s'.
  split_and!; [done | by apply negb_true_iff | done].
Qed.

Lemma addNamespaces_declares (rest : string) :
  regex_test (regex_of xmlns_svg) (addNamespaces ("<svg" +:+ rest)) = true ∧
  regex_test (regex_of quoted_xlink) (addNamespaces ("<svg" +:+ rest)) = true ∧
  is_Some (strip_svg (addNamespaces ("<svg" +:+ rest))).
Proof.
  unfold addNamespaces.
  destruct (regex_test (regex_of xmlns_svg) ("<svg" +:+ rest)) eqn:H1;
    cbn [negb].
  - destruct (regex_test (regex_of quoted_xlink) ("<svg" +:+ rest)) eqn:H2;
      cbn [negb]; [by split_and!|].
    apply regex_test_inv in H1 as (c & s' & -> & Hc & Hs).
    split_and!; [| by vm_compute | by vm_compute; eexists].
    unfold regex_test.
    change (strip_svg (replace_svg ("<svg xmlns:xlink=" +:+ quoted_xlink)
                         ("<svg" +:+ String c s')))
      with (Some (" xmlns:xlink=" +:+ quoted_xlink +:+ String c s')).
    change (" xmlns:xlink=" +:+ quoted_xlink +:+ String c s')
      with (String " " ("xmlns:xlink=" +:+ quoted_xlink +:+ String c s')).
    change (negb (" " =? ">")%char) with true. cbn [andb].
    unfold quoted_xlink, dquote.
    repeat (apply after_tag_cons; [reflexivity|]).
    by apply after_tag_cons.
  - change (replace_svg ("<svg " +:+ xmlns_svg) ("<svg" +:+ rest))
      with ("<svg " +:+ xmlns_svg +:+ rest).
    destruct (regex_test (regex_of quoted_xlink)
                ("<svg " +:+ xmlns_svg +:+ rest)) eqn:H2; cbn [negb].
    + split_and!; [by vm_compute | done | by vm_compute; eexists].
    + split_and!; [by vm_compute | by vm_compute | by vm_compute; eexists].
Qed.

(** X4. Applied to a text that starts with [<svg], the fix-up changes it
    only by inserting text directly after that [<svg]: the SVG declaration
    when the script's first pattern is not found in the input, and before it
    the XLink declaration when the second pattern is not found after that
    step; the rest of the text is kept.  In the result both of the script's
    patterns are found.  (A pattern may be found although the name space is
    not declared, in another attribute for instance: then nothing is
    inserted for it.)  A text that does not start with [<svg] is returned as
    it is. *)
Theorem addNamespaces_complete (s : string) :
  match strip_svg s with
  | Some rest =>
      let svg_added :=
        if regex_test (regex_of xmlns_svg) s then "" else " " +:+ xmlns_svg in
      let xlink_added :=
        if regex_test (regex_of quoted_xlink) ("<svg" +:+ svg_added +:+ rest)
        then "" else " xmlns:xlink=" +:+ quoted_xlink in
      addNamespaces s = "<svg" +:+ xlink_added +:+ svg_added +:+ rest ∧
      regex_test (regex_of xmlns_svg) (addNamespaces s) = true ∧
      regex_test (regex_of quoted_xlink) (addNamespaces s) = true
  | None => addNamespaces s = s
  end.
Proof.
  destruct (strip_svg s) as [rest|] eqn:Hs; [|by apply addNamespaces_no_tag].
  apply strip_svg_Some in Hs as ->. cbn zeta.
  destruct (addNamespaces_declares rest) as (H1 & H2 & _).
  split; [|by split]. clear H1 H2. unfold addNamespaces.
  destruct (regex_test (regex_of xmlns_svg) ("<svg" +:+ rest)); cbn [negb].
  - change ("<svg" +:+ "" +:+ rest) with ("<svg" +:+ rest).
    by destruct (regex_test (regex_of quoted_xlink) ("<svg" +:+ rest)).
  - change (replace_svg ("<svg " +:+ xmlns_svg) ("<svg" +:+ rest))
      with ("<svg" +:+ (" " +:+ xmlns_svg) +:+ rest).
    by destruct (regex_test (regex_of quoted_xlink)
                   ("<svg" +:+ (" " +:+ xmlns_svg) +:+ rest)).
Qed.

(** X5. The fix-up is idempotent: a second application changes nothing, so
    no declaration is ever added twice. *)
Theorem addNamespaces_idempotent (s : string) :
  addNamespaces (addNamespaces s) = addNamespaces s.
Proof.
  destruct (strip_svg s) as [rest|] eqn:Hs.
  - apply strip_svg_Some in Hs as ->.
    destruct (addNamespaces_declares rest) as (H1 & H2 & _).
    by apply addNamespaces_present.
  - rewrite (addNamespaces_no_tag s Hs). exact (addNamespaces_no_tag s Hs).
Qed.

(** ** Strokes after their commit *)

Section Coverage.
Context {api : BrowserAPI}.

Lemma settled_dispatch (r : ref) (a : Action) (s : State) :
  settled r s →
  settled r (dispatch a s).2 ∧ heap (dispatch a s).2 !! r = heap s !! r.
Proof.
  intros [Hlt Hcp]. unfold settled.
  destruct a as [env e|env e|env e|env e|env e| | | |k]; cbn [dispatch];
    try done.
  - unfold beginStroke. destruct (filtered e); cbn; [done|].
    split; [split; [lia | intros [= Heq]; lia]|].
    apply lookup_insert_ne. lia.
  - unfold continueStroke.
    repeat case_match; cbn; (split; [split; congruence|]); try done;
      apply lookup_alter_ne; congruence.
  - unfold endStroke.
    repeat case_match; cbn; (split; [split; congruence|]); try done;
      apply lookup_alter_ne; congruence.
  - unfold endStroke.
    repeat case_match; cbn; (split; [split; congruence|]); try done;
      apply lookup_alter_ne; congruence.
  - unfold onKeyDown. by destruct (_ && _).
Qed.

Lemma settled_run (r : ref) (acts : list Action) (s : State) :
  settled r s → heap (run acts s) !! r = heap s !! r.
Proof.
  revert s. induction acts as [|a acts IH]; intros s Hs; [done|].
  destruct (settled_dispatch r a s Hs) as [Hs' Hh].
  change (run (a :: acts) s) with (run acts (dispatch a s).2).
  by rewrite IH.
Qed.

(** X6. A committed stroke is never modified again: whatever events follow,
    its element keeps the attributes it had (path text, colour, width), also
    after it has been undone or cleared away. *)
Theorem committed_stroke_is_immutable (st : State) (r : ref)
    (acts : list Action) :
  reachable st → r ∈ strokeHistory st →
  heap (run acts st) !! r = heap st !! r.
Proof.
  intros Hreach Hr. pose proof (reachable_Inv _ Hreach) as HI.
  apply settled_run. split.
  - by apply (inv_hist_lt _ HI).
  - intros Hcp. by destruct (inv_current _ HI r Hcp) as (_ & Hnh & _).
Qed.

Lemma NoDup_removelast (h : list ref) : NoDup h → NoDup (removelast h).
Proof.
  destruct (last h) as [a|] eqn:Hl.
  - apply last_Some in Hl as [h' ->]. rewrite removelast_last.
    by intros [? _]%NoDup_app.
  - by apply last_None in Hl as ->.
Qed.

Lemma NoDup_history_dispatch (a : Action) (s : State) :
  Inv s → NoDup (strokeHistory s) → NoDup (strokeHistory (dispatch a s).2).
Proof.
  intros HI Hnd.
  assert (∀ env e, NoDup (strokeHistory (endStroke env e s).2)) as Hend.
  { intros env e. unfold endStroke.
    destruct (drawing s); [|done]. cbn [negb].
    destruct (currentPath s) as [path|] eqn:Hcp; [|done].
    destruct (_ <? 2); [by destruct (removeChild _ _)|]. cbn.
    destruct (inv_current _ HI path Hcp) as (_ & Hnh & _).
    apply NoDup_app. split_and!; [done | | apply NoDup_singleton].
    by intros r Hr ->%list_elem_of_singleton. }
  destruct a as [env e|env e|env e|env e|env e| | | |k]; cbn [dispatch];
    try done.
  - unfold beginStroke. by destruct (filtered e).
  - unfold continueStroke. repeat case_match; by cbn.
  - apply NoDup_nil_2.
  - by apply NoDup_removelast.
  - unfold onKeyDown. destruct (_ && _); [by apply NoDup_removelast | done].
Qed.

Lemma reachable_NoDup_history (st : State) :
  reachable st → NoDup (strokeHistory st).
Proof.
  induction 1 as [st Hi|a st Hreach IH].
  - destruct Hi as (_ & _ & _ & -> & _). apply NoDup_nil_2.
  - apply NoDup_history_dispatch; [by apply reachable_Inv | done].
Qed.

(** X7. In every reachable state the stroke history holds no element twice,
    and every element of the history exists and is not the stroke in
    progress: no stroke is committed twice and none is both committed and
    still being drawn. *)
Theorem history_has_no_duplicates (st : State) :
  reachable st →
  NoDup (strokeHistory st) ∧
  ∀ r, r ∈ strokeHistory st →
       is_Some (heap st !! r) ∧ currentPath st ≠ Some r.
Proof.
  intros Hreach. pose proof (reachable_Inv _ Hreach) as HI.
  split; [by apply reachable_NoDup_history|].
  intros r Hr. split.
  - destruct (inv_hist _ HI r Hr) as (pts & _ & el & Hel & _). by exists el.
  - intros Hcp. by destruct (inv_current _ HI r Hcp) as (_ & Hnh & _).
Qed.

(** ** Errors of the release handler *)

(** X8. The release handler throws in one situation only: a gesture is in
    progress, its stroke has fewer than 2 points, and its element is not a
    child of the group; the error is [NotFoundError].  In every other state
    it returns normally.  In both cases the drawing flag is off
    afterwards. *)
Theorem endStroke_throws_iff (env : Env) (e : PointerEvent) (st : State) :
  ((endStroke env e st).1 = Throw "NotFoundError" ↔
   drawing st = true ∧
   ∃ r, currentPath st = Some r ∧ length (currentPoints st) < 2 ∧
        r ∉ strokesGroup st) ∧
  ((endStroke env e st).1 = Throw "NotFoundError" ∨
   (endStroke env e st).1 = Normal) ∧
  drawing (endStroke env e st).2 = false.
Proof.
  unfold endStroke. destruct (drawing st) eqn:Hdr; cbn [negb].
  2: { split_and!; [|by right | done]. split; [done | by intros [? _]]. }
  destruct (currentPath st) as [path|] eqn:Hcp.
  2: { split_and!; [|by right | done].
       split; [done | by intros (_ & r & ? & _)]. }
  destruct (length (currentPoints st) <? 2) eqn:Hlen.
  - apply Nat.ltb_lt in Hlen.
    destruct (removeChild path (strokesGroup st)) as [kids|] eqn:Hrm; cbn.
    + split_and!; [|by right | done]. split; [done|].
      intros (_ & r & [= <-] & _ & Hnot).
      apply removeChild_None in Hnot. congruence.
    + apply removeChild_None in Hrm.
      split_and!; [|by left | done]. split; [|done].
      intros _. split; [done|]. by exists path.
  - apply Nat.ltb_ge in Hlen. cbn.
    split_and!; [|by right | done]. split; [done|].
    intros (_ & r & _ & Hlt & _). lia.
Qed.

Lemma endStroke_not_drawing (env : Env) (e : PointerEvent) (st : State) :
  drawing (endStroke env e st).2 = false.
Proof.
  unfold endStroke. destruct (drawing st) eqn:Hd; cbn [negb]; [|done].
  repeat case_match; by cbn.
Qed.

Lemma endStroke_idle (env : Env) (e : PointerEvent) (st : State) :
  drawing st = false → endStroke env e st = (Normal, st).
Proof. intros Hd. unfold endStroke. by rewrite Hd. Qed.

(** X9. A second release does nothing: after the release handler has run,
    running it again (a pointer-cancel after a pointer-up, say) returns
    normally and leaves the state as it is. *)
Theorem endStroke_twice (env env' : Env) (e e' : PointerEvent) (st : State) :
  endStroke env' e' (endStroke env e st).2 = (Normal, (endStroke env e st).2).
Proof.
  apply endStroke_idle, endStroke_not_drawing.
Qed.

(** ** Clear and undo *)

(** X10. Clear during a drag does not cancel the stroke.  When the stroke in
    progress has 2 points or more, the release after the Clear returns
    normally and commits it: the history then holds exactly that stroke,
    although the scene is empty and does not show it.  The next undo removes
    this entry from the history and changes nothing in the scene. *)
Theorem clear_during_drag_commits_unseen_stroke (st : State) (env : Env)
    (e : PointerEvent) (r : ref) :
  reachable st → drawing st = true → currentPath st = Some r →
  2 ≤ length (currentPoints st) →
  let st1 := (clearAll st).2 in
  let st2 := (endStroke env e st1).2 in
  (endStroke env e st1).1 = Normal ∧
  strokeHistory st2 = [r] ∧ strokesGroup st2 = [] ∧
  strokeHistory (undoLast st2).2 = [] ∧ strokesGroup (undoLast st2).2 = [].
Proof.
  intros Hreach Hdr Hcp Hlen st1 st2.
  destruct (inv_current _ (reachable_Inv _ Hreach) r Hcp)
    as (_ & _ & _ & el & Hel & _).
  unfold st2. rewrite (endStroke_commit env e st1 r el) by done.
  cbn. rewrite removeAllChildren_nil. done.
Qed.

Lemma removelast_take (h : list ref) : removelast h = take (length h - 1) h.
Proof.
  destruct (last h) as [a|] eqn:Hl.
  - apply last_Some in Hl as [h' ->]. rewrite removelast_last, length_app.
    cbn [length]. replace (length h' + 1 - 1) with (length h') by lia.
    by rewrite take_app_length.
  - by apply last_None in Hl as ->.
Qed.

(** X11. Undo pressed [n] times removes the [n] most recently committed
    strokes from the history (all of them when there are fewer) and never
    touches the gesture in progress: the
    drawing flag, the current path, the recorded points and all elements
    stay as they are. *)
Theorem undo_n_times (n : nat) (st : State) :
  let st' := run (replicate n UndoClick) st in
  strokeHistory st' = take (length (strokeHistory st) - n) (strokeHistory st) ∧
  drawing st' = drawing st ∧ currentPath st' = currentPath st ∧
  currentPoints st' = currentPoints st ∧ heap st' = heap st.
Proof.
  revert st. induction n as [|n IH]; intros st.
  { cbn. rewrite Nat.sub_0_r, firstn_all. by split_and!. }
  change (run (replicate (S n) UndoClick) st)
    with (run (replicate n UndoClick) (undoLast st).2).
  destruct (IH (undoLast st).2) as (Hh & Hd & Hc & Hp & Hhp).
  cbn zeta. rewrite Hh, Hd, Hc, Hp, Hhp.
  split_and!; try done.
  unfold undoLast, pop. cbn. rewrite removelast_take, length_take, take_take.
  f_equal. lia.
Qed.

(** X12. Clear cannot be undone and is idempotent: undo right after Clear
    returns normally and leaves the state as it is, and a second Clear gives
    the same result as the first. *)
Theorem clear_is_final (st : State) :
  undoLast (clearAll st).2 = (Normal, (clearAll st).2) ∧
  clearAll (clearAll st).2 = clearAll st.
Proof.
  split; [done|]. unfold clearAll. cbn. by rewrite !removeAllChildren_nil.
Qed.

(** ** Pages on which Clear is not used *)

(** A move sample changes the recorded points and one element, nothing
    else. *)
Lemma continueStroke_fields (env : Env) (e : PointerEvent) (s : State) :
  drawing (continueStroke env e s).2 = drawing s ∧
  currentPath (continueStroke env e s).2 = currentPath s ∧
  strokeHistory (continueStroke env e s).2 = strokeHistory s ∧
  strokesGroup (continueStroke env e s).2 = strokesGroup s ∧
  next_ref (continueStroke env e s).2 = next_ref s.
Proof. unfold continueStroke. repeat case_match; by cbn. Qed.

Lemma rendered_dispatch (a : Action) (s : State) :
  Inv s → rendered_history s → a ≠ ClearClick →
  rendered_history (dispatch a s).2.
Proof.
  intros HI (Hnd & Hh & Hc) Ha.
  pose proof (inv_nodup _ HI) as Hkids.
  assert (rendered_history (undoLast s).2) as Hundo.
  { unfold undoLast, pop, rendered_history. cbn.
    destruct (last (strokeHistory s)) as [l|] eqn:Hl.
    - apply last_Some in Hl as [h0 Hh0]. rewrite Hh0 in *.
      rewrite removelast_last.
      apply NoDup_app in Hnd as (Hnd0 & Hdisj & _).
      destruct (without_spec l _ Hkids) as [_ Hin].
      split_and!; [done | |].
      + intros r Hr. apply Hin. split.
        * apply Hh, elem_of_app. by left.
        * intros ->. apply (Hdisj l Hr), list_elem_of_here.
      + intros r Hr. apply Hin. split; [by apply Hc|].
        intros ->. destruct (inv_current _ HI l Hr) as (_ & Hnh & _).
        apply Hnh. rewrite Hh0, elem_of_app. right. apply list_elem_of_here.
    - apply last_None in Hl. rewrite Hl in *. split_and!; done. }
  assert (∀ env e, rendered_history (endStroke env e s).2) as Hend.
  { intros env e. unfold endStroke, rendered_history.
    destruct (drawing s); [|done]. cbn [negb].
    destruct (currentPath s) as [path|] eqn:Hcp; [|by cbn].
    destruct (inv_current _ HI path Hcp) as (_ & Hnh & _).
    destruct (_ <? 2).
    - destruct (removeChild path (strokesGroup s)) as [kids|] eqn:Hrm; cbn;
        [|done].
      destruct (removeChild_Some _ _ _ Hrm Hkids) as [_ Hin].
      split_and!; [done | | done].
      intros r Hr. apply Hin. split; [by apply Hh | by intros ->].
    - cbn. split_and!; [| | done].
      + apply NoDup_app. split_and!; [done | | apply NoDup_singleton].
        by intros r Hr ->%list_elem_of_singleton.
      + intros r [Hr| ->%list_elem_of_singleton]%elem_of_app;
          [by apply Hh | by apply Hc]. }
  destruct a as [env e|env e|env e|env e|env e| | | |k]; cbn [dispatch];
    try done.
  - unfold beginStroke, rendered_history. destruct (filtered e); cbn; [done|].
    split_and!; [done | |].
    + intros r Hr. apply elem_of_app. left. by apply Hh.
    + intros r [= <-]. apply elem_of_app. right. apply list_elem_of_here.
  - destruct (continueStroke_fields env e s) as (_ & Hcp' & Hh' & Hg' & _).
    unfold rendered_history. by rewrite Hcp', Hh', Hg'.
  - unfold onKeyDown. by destruct (_ && _).
Qed.

Lemma rendered_no_throw (a : Action) (s : State) :
  Inv s → rendered_history s → (dispatch a s).1 = Normal.
Proof.
  intros HI (Hnd & Hh & Hc).
  assert (∀ env e, (endStroke env e s).1 = Normal) as Hend.
  { intros env e. unfold endStroke.
    destruct (drawing s); [|done]. cbn [negb].
    destruct (currentPath s) as [path|] eqn:Hcp; [|done].
    destruct (_ <? 2); [|done].
    destruct (removeChild path (strokesGroup s)) as [kids|] eqn:Hrm; [done|].
    apply removeChild_None in Hrm. destruct Hrm. by apply Hc. }
  destruct a as [env e|env e|env e|env e|env e| | | |k]; cbn [dispatch];
    try done.
  - unfold beginStroke. by destruct (filtered e).
  - destruct (drawing s) eqn:Hdr;
      [|unfold continueStroke; by rewrite Hdr].
    destruct (currentPath s) as [path|] eqn:Hcp;
      [|unfold continueStroke; by rewrite Hdr, Hcp].
    destruct (inv_current _ HI path Hcp) as (_ & _ & Hne & el & Hel & Hd).
    by rewrite (continueStroke_drawing env e s path el).
  - unfold onKeyDown. by destruct (_ && _).
Qed.

Lemma rendered_run (acts : list Action) (s : State) :
  Inv s → rendered_history s → ClearClick ∉ acts →
  Inv (run acts s) ∧ rendered_history (run acts s).
Proof.
  revert s. induction acts as [|a acts IH]; intros s HI HR Hnc; [done|].
  apply not_elem_of_cons in Hnc as [Ha Hnc].
  apply IH; [by apply Inv_dispatch | | done].
  apply rendered_dispatch; [done | done | congruence].
Qed.

Lemma rendered_initial (st : State) : initial st → rendered_history st.
Proof.
  intros (_ & Hc & _ & Hh & _). unfold rendered_history. rewrite Hh, Hc.
  split_and!; [apply NoDup_nil_2 | by intros r ?%elem_of_nil | done].
Qed.

(** X13. As long as Clear has not been used since the page was loaded, every
    committed stroke is in the scene, and so is the stroke in progress:
    the history never names a stroke that is not shown. *)
Theorem history_is_rendered_without_clear (st0 : State) (acts : list Action) :
  initial st0 → ClearClick ∉ acts →
  (∀ r, r ∈ strokeHistory (run acts st0) → r ∈ strokesGroup (run acts st0)) ∧
  (∀ r, currentPath (run acts st0) = Some r → r ∈ strokesGroup (run acts st0)).
Proof.
  intros Hi Hnc.
  destruct (rendered_run acts st0) as [_ (_ & Hh & Hc)];
    [by apply Inv_initial | by apply rendered_initial | done | done].
Qed.

(** X14. As long as Clear has not been used since the page was loaded, no
    handler throws: every event, Clear included, is handled to a normal
    return. *)
Theorem no_handler_throws_without_clear (st0 : State) (acts : list Action)
    (a : Action) :
  initial st0 → ClearClick ∉ acts →
  (dispatch a (run acts st0)).1 = Normal.
Proof.
  intros Hi Hnc.
  destruct (rendered_run acts st0) as [HI HR];
    [by apply Inv_initial | by apply rendered_initial | done |].
  by apply rendered_no_throw.
Qed.

(** ** Round trips *)

Lemma run_app (l1 l2 : list Action) (s : State) :
  run (l1 ++ l2) s = run l2 (run l1 s).
Proof. unfold run. apply foldl_app. Qed.

Lemma quiet_run (acts : list Action) (s : State) :
  Forall quiet acts →
  strokeHistory (run acts s) = strokeHistory s ∧
  strokesGroup (run acts s) = strokesGroup s.
Proof.
  intros Hall. revert s. induction Hall as [|a acts Ha _ IH]; intros s; [done|].
  change (run (a :: acts) s) with (run acts (dispatch a s).2).
  destruct (IH (dispatch a s).2) as [-> ->].
  destruct a as [env e|env e|env e|env e|env e| | | |k]; try done.
  destruct (continueStroke_fields env e s) as (_ & _ & Hh & Hg & _).
  by split.
Qed.

Lemma quiet_mid_gesture (acts : list Action) :
  Forall quiet acts → Forall mid_gesture acts.
Proof. intros Hall. eapply Forall_impl; [exact Hall|]. by intros []. Qed.

Lemma removeChild_snoc (r : ref) (kids : list ref) :
  r ∉ kids → removeChild r (kids ++ [r]) = Some kids.
Proof.
  induction kids as [|k kids IH]; intros Hr; cbn [removeChild app].
  - by rewrite decide_True.
  - apply not_elem_of_cons in Hr as [Hne Hr].
    rewrite decide_False by done. by rewrite IH.
Qed.

Lemma without_snoc (r : ref) (kids : list ref) :
  r ∉ kids → without r (kids ++ [r]) = kids.
Proof.
  intros Hr. unfold without, parentNode.
  rewrite bool_decide_eq_true_2 by (apply elem_of_app; right; apply list_elem_of_here).
  by rewrite removeChild_snoc.
Qed.

(** The state at the release of a gesture made of quiet events. *)
Lemma quiet_gesture (st : State) (env0 : Env) (e0 : PointerEvent)
    (acts : list Action) :
  Inv st → filtered e0 = false → Forall quiet acts →
  let st1 := run (PointerDown env0 e0 :: acts) st in
  drawing st1 = true ∧ currentPath st1 = Some (next_ref st) ∧
  currentPoints st1 = getSvgPoint env0 e0 :: samples_of acts ∧
  strokeHistory st1 = strokeHistory st ∧
  strokesGroup st1 = strokesGroup st ++ [next_ref st] ∧
  is_Some (heap st1 !! next_ref st) ∧
  next_ref st ∉ strokesGroup st.
Proof.
  intros HI Hf Hall st1.
  destruct (beginStroke_accepted env0 e0 st Hf)
    as (Hdr & Hcp & Hpts & Hh & Hg & _ & Hd).
  destruct (gesture_progress acts (beginStroke env0 e0 st).2 (next_ref st))
    as (Hdr1 & Hcp1 & Hpts1 & (el & Hel & _) & _);
    [by apply quiet_mid_gesture | done | done | by rewrite Hpts
    | by rewrite Hpts |].
  destruct (quiet_run acts (beginStroke env0 e0 st).2 Hall) as [Hh1 Hg1].
  change (run acts (beginStroke env0 e0 st).2) with st1 in *.
  split_and!; [done | done | by rewrite Hpts1, Hpts | congruence | congruence
              | by exists el |].
  intros Hin%(inv_group_lt _ HI). lia.
Qed.

(** X15. A committed gesture followed by undo is a round trip for the
    history and the scene.  From any reachable state, an accepted
    pointer-down, moves (at least one; leave events and exports may come in
    between), a release and an undo give back the history and the children
    of the group as they were before the pointer-down, with no gesture in
    progress. *)
Theorem gesture_then_undo_restores (st : State) (env0 : Env)
    (e0 : PointerEvent) (acts : list Action) (envu : Env) (eu : PointerEvent) :
  reachable st → filtered e0 = false → Forall quiet acts →
  samples_of acts ≠ [] →
  let st' :=
    run (PointerDown env0 e0 :: acts ++ [PointerUp envu eu; UndoClick]) st in
  strokeHistory st' = strokeHistory st ∧
  strokesGroup st' = strokesGroup st ∧
  drawing st' = false ∧ currentPath st' = None ∧ currentPoints st' = [].
Proof.
  intros Hreach Hf Hall Hne st'.
  destruct (quiet_gesture st env0 e0 acts (reachable_Inv _ Hreach) Hf Hall)
    as (Hdr & Hcp & Hpts & Hh & Hg & [el Hel] & Hfresh).
  unfold st'. rewrite app_comm_cons, run_app. clear st'.
  revert Hdr Hcp Hpts Hh Hg Hel.
  generalize (run (PointerDown env0 e0 :: acts) st). intros st1 **.
  change (run [PointerUp envu eu; UndoClick] st1)
    with (undoLast (endStroke envu eu st1).2).2.
  rewrite (endStroke_commit envu eu st1 (next_ref st) el); [|done|done| |done].
  - unfold undoLast, pop. cbn.
    rewrite Hh, Hg, last_snoc, removelast_last, without_snoc by done. done.
  - rewrite Hpts. cbn [length].
    destruct (samples_of acts); [done | cbn [length]; lia].
Qed.

(** X16. A tap is a round trip.  From any reachable state, an accepted
    pointer-down and a release with no move in between (leave events and
    exports may come in between) return normally and give back the history
    and the children of the group as they were, with no gesture in progress
    and no recorded points. *)
Theorem tap_leaves_no_trace (st : State) (env0 : Env) (e0 : PointerEvent)
    (acts : list Action) (envu : Env) (eu : PointerEvent) :
  reachable st → filtered e0 = false → Forall quiet acts →
  samples_of acts = [] →
  let st1 := run (PointerDown env0 e0 :: acts) st in
  let st' := (endStroke envu eu st1).2 in
  (endStroke envu eu st1).1 = Normal ∧
  strokeHistory st' = strokeHistory st ∧
  strokesGroup st' = strokesGroup st ∧
  drawing st' = false ∧ currentPath st' = None ∧ currentPoints st' = [].
Proof.
  intros Hreach Hf Hall Hnone st1 st'.
  destruct (quiet_gesture st env0 e0 acts (reachable_Inv _ Hreach) Hf Hall)
    as (Hdr & Hcp & Hpts & Hh & Hg & _ & Hfresh).
  unfold st', st1. clear st' st1.
  revert Hdr Hcp Hpts Hh Hg.
  generalize (run (PointerDown env0 e0 :: acts) st). intros st1 **.
  unfold endStroke. rewrite Hdr, Hcp, Hpts, Hnone, Hg.
  cbn [negb length]. change (1 <? 2) with true. cbn iota.
  rewrite removeChild_snoc by done. by cbn.
Qed.

(** ** The shape of the curve *)




End Coverage.

(** ** File name of the download *)

Lemma string_length_app (s t : string) :
  String.length (s +:+ t) = String.length s + String.length t.
Proof.
  induction s as [|c s IH]; [done|].
  change (String c s +:+ t) with (String c (s +:+ t)). cbn [String.length].
  by rewrite IH.
Qed.

Lemma string_app_inj_r (s1 s2 t : string) : s1 +:+ t = s2 +:+ t → s1 = s2.
Proof.
  revert s2. induction s1 as [|c s1 IH]; intros [|c2 s2] Heq; [done | | |].
  - apply (f_equal String.length) in Heq.
    change (String c2 s2 +:+ t) with (String c2 (s2 +:+ t)) in Heq.
    change ("" +:+ t) with t in Heq.
    cbn [String.length] in Heq. rewrite string_length_app in Heq. lia.
  - apply (f_equal String.length) in Heq.
    change (String c s1 +:+ t) with (String c (s1 +:+ t)) in Heq.
    change ("" +:+ t) with t in Heq.
    cbn [String.length] in Heq. rewrite string_length_app in Heq. lia.
  - change (String c (s1 +:+ t) = String c2 (s2 +:+ t)) in Heq.
    injection Heq as -> Heq. f_equal. by apply IH.
Qed.

(** X18. Exports that finish loading at different clock readings are
    downloaded under different file names: if two downloads carry the same
    name, their load callbacks read the same [Date.now()]. *)
Theorem download_names_differ {api : BrowserAPI} (st st' : State)
    (now now' : Z) (href href' name : string) :
  DownloadClick href name ∈ fire (saveAsPng st).1 (Loaded now) →
  DownloadClick href' name ∈ fire (saveAsPng st').1 (Loaded now') →
  now = now'.
Proof.
  cbn. intros H1 H2.
  assert (∀ url u (z : Z), DownloadClick u name ∈
            [FillRect "#ffffff" 1000%Q 600%Q; DrawImage url 1000%Q 600%Q;
             RevokeObjectURL url;
             DownloadClick (toDataURL url) ("drawing_" +:+ pretty z +:+ ".png")] →
          name = "drawing_" +:+ pretty z +:+ ".png") as Hname.
  { intros url u z Hin.
    repeat (apply elem_of_cons in Hin as [Hin|Hin]; [discriminate Hin|]).
    apply elem_of_cons in Hin as [[= _ ->]|Hin]; [done|].
    by apply elem_of_nil in Hin. }
  apply Hname in H1. apply Hname in H2. rewrite H1 in H2.
  apply (inj (String.append "drawing_")) in H2.
  apply string_app_inj_r in H2. by apply (inj pretty) in H2.
Qed.

(** * The further properties on the sample inputs *)

Lemma sample_initial_initial : initial sample_initial.
Proof.
  unfold initial, sample_initial. cbn.
  split_and!; try done; [apply NoDup_nil_2 | by intros r ?%elem_of_nil].
Qed.

(** The events of one committed stroke. *)
Definition sample_stroke : list Action :=
  sample_down :: sample_moves ++ [sample_up].

Lemma sample_stroke_clear_free : ClearClick ∉ sample_stroke.
Proof.
  unfold sample_stroke, sample_moves, sample_down, sample_up. cbn [app].
  repeat (apply not_elem_of_cons; split; [discriminate|]).
  apply not_elem_of_nil.
Qed.

Lemma committed_stroke_is_immutable_witness :
  let st := run (api := sample_api) sample_stroke sample_initial in
  heap (run (api := sample_api) [sample_down; ClearClick; UndoClick] st) !! 0
  = heap st !! 0.
Proof.
  intros st.
  apply (committed_stroke_is_immutable (api := sample_api) st 0).
  - apply reachable_run, sample_initial_reachable.
  - apply (list_elem_of_here 0 []).
Defined.

Lemma history_has_no_duplicates_witness :
  NoDup (strokeHistory (run (api := sample_api) sample_stroke sample_initial)).
Proof.
  apply (history_has_no_duplicates (api := sample_api)).
  apply reachable_run, sample_initial_reachable.
Defined.

Lemma clear_during_drag_commits_unseen_stroke_witness :
  let st := run (api := sample_api) (sample_down :: sample_moves) sample_initial in
  let st2 := (endStroke sample_env_release (sample_event 10 0) (clearAll st).2).2 in
  strokeHistory st2 = [0] ∧ strokesGroup st2 = [].
Proof.
  intros st st2.
  destruct (clear_during_drag_commits_unseen_stroke (api := sample_api) st
              sample_env_release (sample_event 10 0) 0) as (_ & Hh & Hg & _).
  - apply reachable_run, sample_initial_reachable.
  - reflexivity.
  - reflexivity.
  - vm_compute. lia.
  - split; [exact Hh | exact Hg].
Defined.

Lemma history_is_rendered_without_clear_witness :
  0 ∈ strokesGroup (run (api := sample_api) sample_stroke sample_initial).
Proof.
  destruct (history_is_rendered_without_clear (api := sample_api)
              sample_initial sample_stroke) as [Hh _].
  - apply sample_initial_initial.
  - apply sample_stroke_clear_free.
  - apply Hh. apply (list_elem_of_here 0 []).
Defined.

Lemma no_handler_throws_without_clear_witness :
  (dispatch (api := sample_api) sample_up
     (run (api := sample_api) sample_stroke sample_initial)).1 = Normal.
Proof.
  apply (no_handler_throws_without_clear (api := sample_api)).
  - apply sample_initial_initial.
  - apply sample_stroke_clear_free.
Defined.

Lemma gesture_then_undo_restores_witness :
  let st := run (api := sample_api) sample_stroke sample_initial in
  let st' := run (api := sample_api)
               (sample_down :: sample_moves ++ [sample_up; UndoClick]) st in
  strokeHistory st' = strokeHistory st ∧ strokesGroup st' = strokesGroup st.
Proof.
  intros st st'.
  destruct (gesture_then_undo_restores (api := sample_api) st sample_env
              (sample_event 0 0) sample_moves sample_env_release
              (sample_event 10 0)) as (Hh & Hg & _).
  - apply reachable_run, sample_initial_reachable.
  - reflexivity.
  - repeat constructor.
  - discriminate.
  - split; [exact Hh | exact Hg].
Defined.

Lemma tap_leaves_no_trace_witness :
  let st := run (api := sample_api) sample_stroke sample_initial in
  let st1 := run (api := sample_api)
               [sample_down; PointerLeave sample_env (sample_event 0 0)] st in
  let st' := (endStroke sample_env_release (sample_event 0 0) st1).2 in
  strokeHistory st' = strokeHistory st ∧ strokesGroup st' = strokesGroup st.
Proof.
  intros st st1 st'.
  destruct (tap_leaves_no_trace (api := sample_api) st sample_env
              (sample_event 0 0) [PointerLeave sample_env (sample_event 0 0)]
              sample_env_release (sample_event 0 0)) as (_ & Hh & Hg & _).
  - apply reachable_run, sample_initial_reachable.
  - reflexivity.
  - repeat constructor.
  - reflexivity.
  - split; [exact Hh | exact Hg].
Defined.


Lemma download_names_differ_witness : (17 = 17)%Z.
Proof.
  apply (download_names_differ (api := sample_api) sample_initial sample_initial
           17 17 "data:image/png,blob:<svg/>" "data:image/png,blob:<svg/>"
           "drawing_17.png").
  - do 3 apply list_elem_of_further. apply list_elem_of_here.
  - do 3 apply list_elem_of_further. apply list_elem_of_here.
Defined.

(** * The coordinate mapping in double arithmetic *)

Module DoubleProperties.
Import PrimFloat.








End DoubleProperties.
